(** * Transducers: a shallow embedding of [transducer.go]

    The Go package works on [interface{}] values and on closures that
    capture mutable variables.  The embedding keeps both: a small universe
    of dynamic values, a heap of mutable cells for the captured variables,
    and a state-and-panic monad in which every Go function body is
    written statement by statement. *)

From Stdlib Require Import ZArith List String Bool Lia.
From stdpp Require Import base gmap list strings.
Import ListNotations.

Local Open Scope string_scope.
Local Open Scope list_scope.
Local Open Scope Z_scope.

#[local] Set Warnings "-register-all".

(** ** Dynamic values

    [interface{}] values that flow through a pipeline.  Pointers carry the
    address they were allocated at: Go compares them by identity.  A
    [*reduced] box is immutable once built (its field is unexported and
    never assigned), so the box records its address and its content. *)

Abbreviation loc := nat.

Inductive value : Type :=
| VNil                                  (* the nil interface *)
| VBool (b : bool)
| VInt (z : Z)                          (* int, 64 bits *)
| VStr (s : string)
| VSlice (l : list value)               (* []interface{} *)
| VPtr (p : loc)                        (* *int *)
| VReduced (p : loc) (val : value).     (* *reduced, &reduced{val: val} *)

(** ** Heap, outcomes and the monad *)

Record heap : Type := Heap { cells : gmap loc value; fresh : loc }.

Inductive outcome (A : Type) : Type :=
| Ok (a : A) (h : heap)
| Panic (msg : string).
Arguments Ok {A} a h.
Arguments Panic {A} msg.

Definition M (A : Type) : Type := heap -> outcome A.

Definition ret {A : Type} (a : A) : M A := fun h => Ok a h.

Definition bind {A B : Type} (m : M A) (f : A -> M B) : M B :=
  fun h => match m h with
           | Ok a h' => f a h'
           | Panic msg => Panic msg
           end.

Definition panic {A : Type} (msg : string) : M A := fun _ => Panic msg.

Declare Scope go_scope.
Delimit Scope go_scope with go.
Notation "x <- c1 ;; c2" := (bind c1 (fun x => c2))
  (at level 100, c1 at next level, right associativity) : go_scope.
Notation "c1 ;;; c2" := (bind c1 (fun _ => c2))
  (at level 100, right associativity) : go_scope.
Local Open Scope go_scope.

Definition empty_heap : heap := Heap ∅ 0%nat.

(** A captured variable: [x := v] at closure creation. *)
Definition alloc (v : value) : M loc :=
  fun h => Ok (fresh h) (Heap (<[fresh h := v]> (cells h)) (S (fresh h))).

Definition load (l : loc) : M value :=
  fun h => match cells h !! l with
           | Some v => Ok v h
           | None => Panic "invalid memory address"
           end.

Definition store (l : loc) (v : value) : M unit :=
  fun h => Ok tt (Heap (<[l := v]> (cells h)) (fresh h)).

(** Reads at the static type of the variable. *)
Definition load_int (l : loc) : M Z :=
  v <- load l ;; match v with VInt z => ret z | _ => panic "not an int" end.

Definition load_bool (l : loc) : M bool :=
  v <- load l ;; match v with VBool b => ret b | _ => panic "not a bool" end.

Definition load_slice (l : loc) : M (list value) :=
  v <- load l ;; match v with VSlice s => ret s | _ => panic "not a slice" end.

(** ** Go's [int] (64 bits, two's complement) *)

Definition int_min : Z := - 2 ^ 63.
Definition int_max : Z := 2 ^ 63 - 1.
Definition is_int (z : Z) : Prop := int_min <= z <= int_max.

Definition wrap (z : Z) : Z := (z + 2 ^ 63) mod 2 ^ 64 - 2 ^ 63.
Definition int_add (a b : Z) : Z := wrap (a + b).
Definition int_sub (a b : Z) : Z := wrap (a - b).

(** [a % b]: truncated remainder, run-time panic on a zero divisor. *)
Definition int_rem (a b : Z) : M Z :=
  if b =? 0 then panic "runtime error: integer divide by zero"
  else ret (Z.rem a b).

(** [a == b] on two [interface{}] values: different dynamic types are
    unequal, pointers compare by address, slices are not comparable. *)
Definition go_eq (a b : value) : M bool :=
  match a, b with
  | VNil, VNil => ret true
  | VBool x, VBool y => ret (Bool.eqb x y)
  | VInt x, VInt y => ret (x =? y)
  | VStr x, VStr y => ret (String.eqb x y)
  | VPtr p, VPtr q => ret (Nat.eqb p q)
  | VReduced p _, VReduced q _ => ret (Nat.eqb p q)
  | VSlice _, VSlice _ =>
      panic "runtime error: comparing uncomparable type []interface {}"
  | _, _ => ret false
  end.

(** [pval == &mark]: an interface against a pointer; never panics. *)
Definition eq_ptr (a : value) (p : loc) : bool :=
  match a with VPtr q => Nat.eqb q p | _ => false end.

(** ** Reducing functions *)

Definition initFn := M value.
Definition resultFn := value -> M value.
Definition reducingFn := value -> value -> M value.

(** The [ReducerFn] interface; [reducer] is its one implementation. *)
Record ReducerFn : Type := reducer {
  Init : initFn;
  Result : resultFn;
  Step : reducingFn
}.

Definition Transducer : Type := ReducerFn -> M ReducerFn.

(** The [wrap...] helpers return a function of the canonical signature
    as it is; other signatures go through reflection, which is outside
    the transformation semantics. *)
Definition wrapInit (f : initFn) : initFn := f.
Definition wrapResult (f : resultFn) : resultFn := f.
Definition wrapReducing (f : reducingFn) : reducingFn := f.

Definition predicate := value -> M bool.
Definition mapper := value -> M value.
Definition reduceFn := reducingFn -> value -> value -> M value.

Definition wrapPredicate (f : predicate) : predicate := f.
Definition wrapMapper (f : mapper) : mapper := f.
Definition wrapReduce (f : reduceFn) : reduceFn := f.

Definition Reducer (init : initFn) (result : resultFn) (step : reducingFn)
  : ReducerFn :=
  reducer (wrapInit init) (wrapResult result) (wrapReducing step).

Definition Reducing (rfn : reducingFn) : Transducer :=
  let reducer := wrapReducing rfn in
  fun step =>
    ret (Reducer (Init step) (fun result => Result step result) reducer).

Definition Completing (rfn : reducingFn) : ReducerFn :=
  let reducer := wrapReducing rfn in
  Reducer (ret VNil) (fun result => ret result) reducer.

(** ** The termination marker *)

Definition Deref (r : value) : value :=
  match r with VReduced _ val => val | _ => r end.

Definition Reduced (val : value) : M value :=
  fun h => Ok (VReduced (fresh h) val) (Heap (cells h) (S (fresh h))).

Definition IsReduced (val : value) : bool :=
  match val with VReduced _ _ => true | _ => false end.

Definition EnsureReduced (val : value) : M value :=
  if IsReduced val then ret val else Reduced val.

Definition Unreduced (val : value) : value :=
  if IsReduced val then Deref val else val.

(** ** Composition *)

(** The method [Transducer.Compose]: [t(other(s))], the argument first. *)
Definition Transducer_Compose (t other : Transducer) : Transducer :=
  fun s => s' <- other s ;; t s'.

Definition Compose (ts : list Transducer) : Transducer :=
  match ts with
  | [] => fun s => ret s
  | [t] => t
  | t0 :: rest =>
      fold_left (fun out t => Transducer_Compose out t) rest t0
  end.

(** ** The catalog

    [RandomSample] (a draw from [math/rand]) is left out; [Replace]
    comes after the map lookups it is written with. *)

Definition Map (f : mapper) : Transducer :=
  let mapFn := wrapMapper f in
  fun rf =>
    Reducing (fun result input =>
      x <- mapFn input ;;
      Step rf result x) rf.

Definition Filter (pred : predicate) : Transducer :=
  let predFn := wrapPredicate pred in
  fun rf =>
    Reducing (fun result input =>
      b <- predFn input ;;
      if b then Step rf result input
      else ret result) rf.

Definition Remove (pred : predicate) : Transducer :=
  let predFn := wrapPredicate pred in
  fun rf =>
    Reducing (fun result input =>
      b <- predFn input ;;
      if negb b then Step rf result input
      else ret result) rf.

Definition Take (n : Z) : Transducer :=
  fun rf =>
    count <- alloc (VInt n) ;;
    Reducing (fun result input =>
      current <- load_int count ;;
      let next := int_sub current 1 in
      store count (VInt next) ;;;
      result <- (if 0 <? current then Step rf result input
                 else ret result) ;;
      if 0 <? next then ret result
      else EnsureReduced result) rf.

Definition TakeWhile (pred : predicate) : Transducer :=
  let predFn := wrapPredicate pred in
  fun rf =>
    Reducing (fun result input =>
      b <- predFn input ;;
      if b then Step rf result input
      else EnsureReduced result) rf.

Definition TakeNth (n : Z) : Transducer :=
  fun rf =>
    count <- alloc (VInt 0) ;;
    Reducing (fun result input =>
      c <- load_int count ;;
      let c := int_add c 1 in
      store count (VInt c) ;;;
      r <- int_rem c n ;;
      if r =? 0 then Step rf result input
      else ret result) rf.

Definition Drop (n : Z) : Transducer :=
  fun rf =>
    dropped <- alloc (VInt 0) ;;
    Reducing (fun result input =>
      d <- load_int dropped ;;
      if d <? n then
        store dropped (VInt (int_add d 1)) ;;;
        ret result
      else Step rf result input) rf.

Definition DropWhile (pred : predicate) : Transducer :=
  let predFn := wrapPredicate pred in
  fun rf =>
    drop <- alloc (VBool true) ;;
    Reducing (fun result input =>
      d <- load_bool drop ;;
      skip <- (if d then predFn input else ret false) ;;
      if skip then ret result
      else
        store drop (VBool false) ;;;
        Step rf result input) rf.

(** [ret != nil] on an interface value. *)
Definition not_nil (v : value) : bool :=
  match v with VNil => false | _ => true end.

Definition Keep (f : mapper) : Transducer :=
  let mapFn := wrapMapper f in
  fun rf =>
    Reducing (fun result input =>
      r <- mapFn input ;;
      if not_nil r then Step rf result r
      else ret result) rf.

Definition KeepIndexed (fn : Z -> value -> M value) : Transducer :=
  fun rf =>
    index <- alloc (VInt 0) ;;
    Reducing (fun result input =>
      i <- load_int index ;;
      r <- fn i input ;;
      i <- load_int index ;;
      store index (VInt (int_add i 1)) ;;;
      if not_nil r then Step rf result r
      else ret result) rf.

Definition Dedupe : Transducer :=
  fun rf =>
    prior <- alloc VNil ;;
    Reducing (fun result input =>
      p <- load prior ;;
      same <- go_eq p input ;;
      if same then ret result
      else
        store prior input ;;;
        Step rf result input) rf.

Definition PartitionBy (f : mapper) : Transducer :=
  let mapFn := wrapMapper f in
  fun rf =>
    part <- alloc (VSlice []) ;;
    mark <- alloc (VInt 0) ;;
    prior <- alloc (VPtr mark) ;;
    ret (Reducer
      (Init rf)
      (fun result =>
         p <- load_slice part ;;
         if 0 <? Z.of_nat (length p) then
           let cpy := VSlice p in
           store part (VSlice []) ;;;
           r <- Step rf result cpy ;;
           Result rf (Unreduced r)
         else Result rf result)
      (fun result input =>
         val <- mapFn input ;;
         pval <- load prior ;;
         store prior val ;;;
         same <- (if eq_ptr pval mark then ret true else go_eq pval val) ;;
         if same then
           p <- load_slice part ;;
           store part (VSlice (p ++ [input])) ;;;
           ret result
         else
           p <- load_slice part ;;
           let cpy := VSlice p in
           store part (VSlice []) ;;;
           r <- Step rf result cpy ;;
           if negb (IsReduced r) then
             p <- load_slice part ;;
             store part (VSlice (p ++ [input])) ;;;
             ret r
           else ret r)).

(** The largest capacity [make] accepts for a slice of interface values
    on a 64-bit target: the allocation limit of the runtime, [2^48] bytes,
    over the 16 bytes of an interface value. *)
Definition max_cap : Z := 2 ^ 44.

(** [make([]interface{}, 0, n)]: a capacity that is negative or beyond
    the limit is a run-time panic; within the limit the memory is taken
    to be there, as for every other allocation of the program. *)
Definition make_slice (n : Z) : M value :=
  if (n <? 0) || (max_cap <? n)
  then panic "runtime error: makeslice: cap out of range"
  else ret (VSlice []).

Definition PartitionAll (n : Z) : Transducer :=
  fun rf =>
    s <- make_slice n ;;
    part <- alloc s ;;
    ret (Reducer
      (Init rf)
      (fun result =>
         p <- load_slice part ;;
         if 0 <? Z.of_nat (length p) then
           let cpy := VSlice p in
           s <- make_slice n ;;
           store part s ;;;
           r <- Step rf result cpy ;;
           Result rf r
         else Result rf result)
      (fun result input =>
         p <- load_slice part ;;
         let p := (p ++ [input]) in
         store part (VSlice p) ;;;
         if n =? Z.of_nat (length p) then
           let cpy := VSlice p in
           s <- make_slice n ;;
           store part s ;;;
           Step rf result cpy
         else ret result)).

Definition Interpose (sep : value) : Transducer :=
  fun rf =>
    started <- alloc (VBool false) ;;
    Reducing (fun result input =>
      b <- load_bool started ;;
      if b then
        sepr <- Step rf result sep ;;
        if IsReduced sepr then ret sepr
        else Step rf sepr input
      else
        store started (VBool true) ;;;
        Step rf result input) rf.

Definition PreservingReduced (rf : ReducerFn) : ReducerFn :=
  Reducer (Init rf) (Result rf)
    (fun result input =>
       r <- Step rf result input ;;
       if IsReduced r then Reduced r
       else ret r).

Definition Cat (reduce : reduceFn) : Transducer :=
  let reduceFn := wrapReduce reduce in
  fun rf =>
    let rrf := PreservingReduced rf in
    Reducing (fun result input =>
      reduceFn (Step rrf) result input) rf.

Definition Mapcat (reduce : reduceFn) (f : mapper) : Transducer :=
  Compose [Map f; Cat reduce].

(** ** Driving a pipeline *)

(** Modelled from the spec: the loop of the driver, which is not part of
    the sources.  Its contract (driver interface, external interfaces
    section): for each element call the composed step, check [IsReduced]
    after each call, and stop on a positive result. *)
Fixpoint feed (step : reducingFn) (acc : value) (xs : list value) : M value :=
  match xs with
  | [] => ret acc
  | x :: xs' =>
      r <- step acc x ;;
      if IsReduced r then ret r else feed step r xs'
  end.

(** Modelled from the spec: a whole reduction as the driver runs it.  The
    transducer is applied to the sink, the inputs are fed, and finish is
    called once on the unwrapped accumulator. *)
Definition transduce (t : Transducer) (rf : ReducerFn) (init : value)
    (xs : list value) : M value :=
  r <- t rf ;;
  acc <- feed (Step r) init xs ;;
  Result r (Unreduced acc).

(** A sink that appends every input it is handed to a slice: its
    accumulator is the sequence of forwarded inputs. *)
Definition appending : ReducerFn :=
  Completing (fun result input =>
    match result with
    | VSlice l => ret (VSlice (l ++ [input]))
    | _ => panic "interface conversion: not a slice"
    end).

(** The value an outcome carries, if any. *)
Definition value_of {A : Type} (o : outcome A) : option A :=
  match o with Ok a _ => Some a | Panic _ => None end.

(** [t1(t2(...(tn(s))...))], written out as the spec words it. *)
Fixpoint apply_nested (ts : list Transducer) (s : ReducerFn) : M ReducerFn :=
  match ts with
  | [] => ret s
  | t :: ts' => s' <- apply_nested ts' s ;; t s'
  end.

(** ** Sinks, inputs and reference functions used in the statements *)

(** The traversal of [ExampleCat]: hand the one input to the step. *)
Definition ExampleCat_reduce : reduceFn :=
  fun rfn result input => rfn result input.

(** A sink that stops at once: its step returns [Reduced(result)]. *)
Definition stopping : ReducerFn :=
  Completing (fun result input => Reduced result).

(** [sep] between consecutive elements. *)
Definition interposed (sep : value) (xs : list value) : list value :=
  match xs with
  | [] => []
  | x :: xs' => x :: flat_map (fun y => [sep; y]) xs'
  end.

(** A computation that leaves the cell [l] as it found it.  The captured
    variables of a closure are out of reach of every other function; for a
    downstream step given as an arbitrary monadic function this is stated
    as a hypothesis. *)
Definition keeps {A : Type} (l : loc) (m : M A) : Prop :=
  forall h a h', m h = Ok a h' -> cells h' !! l = cells h !! l.

(** The key function of the spec's example: parity of an int. *)
Definition isOdd : mapper :=
  fun v => match v with
           | VInt z => ret (VBool (Z.odd z))
           | _ => panic "interface conversion: not an int"
           end.

(** The heap of [PartitionBy(isOdd)] over the appending sink once the
    inputs 1, 1 are buffered: buffer, marker, previous key. *)
Definition buffered_1_1 : heap :=
  Heap (<[2%nat := VBool true]>
          (<[1%nat := VInt 0]> {[ 0%nat := VSlice [VInt 1; VInt 1] ]}))
       3%nat.

(** A sink whose [Result] reports whether the accumulator it is handed is
    Reduced, and whose step stops at once. *)
Definition observing : ReducerFn :=
  Reducer (ret VNil)
          (fun result => ret (VBool (IsReduced result)))
          (fun result input => Reduced result).

(** The inputs at the positions divisible by [n], counting from [pos]. *)
Fixpoint every_nth (n pos : Z) (xs : list value) : list value :=
  match xs with
  | [] => []
  | x :: xs' =>
      if pos mod n =? 0 then x :: every_nth n (pos + 1) xs'
      else every_nth n (pos + 1) xs'
  end.

(** The inputs [TakeNth(n)] forwards, by the count the code keeps: a Go
    [int] that starts from [c], is incremented, with wrap-around, before
    each test, and is tested with Go's [%]. *)
Fixpoint every_nth_int (n c : Z) (xs : list value) : list value :=
  match xs with
  | [] => []
  | x :: xs' =>
      if Z.rem (int_add c 1) n =? 0 then x :: every_nth_int n (int_add c 1) xs'
      else every_nth_int n (int_add c 1) xs'
  end.

(** [2^63] zeros and then a one: the one is the input at position
    [2^63 + 1], a multiple of 3. *)
Definition long_run : list value :=
  repeat (VInt 0) (Z.to_nat (2 ^ 63)) ++ [VInt 1].

(** A slice of ints. *)
Definition ints (l : list Z) : list value := map VInt l.

(** ** Callbacks, frames and reference functions for the catalog laws *)

(** A mapper that computes [g] and has no effect. *)
Definition pure_fn (f : mapper) (g : value -> value) : Prop :=
  forall x h, f x h = Ok (g x) h.

(** A predicate that computes [q] and has no effect. *)
Definition pure_pred (p : predicate) (q : value -> bool) : Prop :=
  forall x h, p x h = Ok (q x) h.

(** The heap with the cell [l] holding [w]. *)
Definition set_cell (l : loc) (w : value) (h : heap) : heap :=
  Heap (<[l := w]> (cells h)) (fresh h).
Arguments set_cell : simpl never.

(** A step that neither reads nor writes the cell [l]: it runs the same
    way whatever [l] holds and leaves [l] as it found it.  This is what
    lexical scoping gives a downstream step with respect to the captured
    variable of the transducer in front of it. *)
Definition ignores (l : loc) (step : reducingFn) : Prop :=
  forall acc x w h,
    step acc x (set_cell l w h)
    = match step acc x h with
      | Ok v h' => Ok v (set_cell l w h')
      | Panic msg => Panic msg
      end.

(** The longest prefix whose elements satisfy [q]. *)
Fixpoint take_while (q : value -> bool) (xs : list value) : list value :=
  match xs with
  | [] => []
  | x :: xs' => if q x then x :: take_while q xs' else []
  end.

(** What is left once the longest prefix satisfying [q] is removed. *)
Fixpoint drop_while (q : value -> bool) (xs : list value) : list value :=
  match xs with
  | [] => []
  | x :: xs' => if q x then drop_while q xs' else xs
  end.

(** Increment of an int by one, as a mapper. *)
Definition inc : mapper :=
  fun v => match v with VInt z => ret (VInt (z + 1)) | _ => ret v end.

(** [x < 5] on ints, as a predicate function and as a Go predicate. *)
Definition below_5 (v : value) : bool :=
  match v with VInt z => z <? 5 | _ => false end.

Definition below_5_pred : predicate := fun v => ret (below_5 v).

(** The image of an int under [f] when it is odd, nil otherwise: the
    mapper of [ExampleKeep]. *)
Definition odd_square (v : value) : value :=
  match v with
  | VInt z => if Z.odd z then VInt (z * z) else VNil
  | _ => VNil
  end.

Definition odd_square_fn : mapper := fun v => ret (odd_square v).

(** The dynamic type of a value; the nil interface has none. *)
Inductive gotype : Type :=
| TBool | TInt | TString | TSlice | TPtrInt | TReduced.

Definition type_of (v : value) : option gotype :=
  match v with
  | VNil => None
  | VBool _ => Some TBool
  | VInt _ => Some TInt
  | VStr _ => Some TString
  | VSlice _ => Some TSlice
  | VPtr _ => Some TPtrInt
  | VReduced _ _ => Some TReduced
  end.

(** [Type.String()] and [Kind.String()] of package reflect. *)
Definition type_name (t : gotype) : string :=
  match t with
  | TBool => "bool"
  | TInt => "int"
  | TString => "string"
  | TSlice => "[]interface {}"
  | TPtrInt => "*int"
  | TReduced => "*transduce.reduced"
  end.

Definition kind_name (t : gotype) : string :=
  match t with
  | TBool => "bool"
  | TInt => "int"
  | TString => "string"
  | TSlice => "slice"
  | TPtrInt | TReduced => "ptr"
  end.

(** The key type of a map: one of the comparable types of the values,
    or [interface{}]. *)
Inductive keytype : Type :=
| KBool | KInt | KString | KPtrInt | KReduced | KInterface.

Definition key_name (K : keytype) : string :=
  match K with
  | KBool => "bool"
  | KInt => "int"
  | KString => "string"
  | KPtrInt => "*int"
  | KReduced => "*transduce.reduced"
  | KInterface => "interface {}"
  end.

(** A value of dynamic type [t] is assignable to the key type [K]. *)
Definition assignable (t : gotype) (K : keytype) : bool :=
  match t, K with
  | _, KInterface => true
  | TBool, KBool | TInt, KInt | TString, KString
  | TPtrInt, KPtrInt | TReduced, KReduced => true
  | _, _ => false
  end.

(** What the default branch of [Replace] reflects on: a map, with its key
    type, or a value that is no map (the nil interface, a number, ...).
    A map is held as its list of entries (keys are compared with Go's
    [==]). *)
Inductive reflected : Type :=
| RMap (K : keytype) (entries : list (value * value))
| RValue (v : value).

(** The table argument of [Replace], an [interface{}], by the branch of
    the type switch it takes: an object with a [Find] method; a
    [map[interface{}]interface{}]; anything else (a map of another key or
    element type or of a named type, or no map at all). *)
Inductive smap : Type :=
| SFind (Find : value -> M (value * bool))
| SMap (entries : list (value * value))
| SOther (m : reflected).

(** Values that can be map keys: everything but slices. *)
Definition hashable (v : value) : bool :=
  match v with VSlice _ => false | _ => true end.

(** [a == b] where it does not panic. *)
Definition veqb (a b : value) : bool :=
  match a, b with
  | VNil, VNil => true
  | VBool x, VBool y => Bool.eqb x y
  | VInt x, VInt y => x =? y
  | VStr x, VStr y => String.eqb x y
  | VPtr p, VPtr q => Nat.eqb p q
  | VReduced p _, VReduced q _ => Nat.eqb p q
  | _, _ => false
  end.

Fixpoint assoc (k : value) (entries : list (value * value)) : option value :=
  match entries with
  | [] => None
  | (k', v) :: rest => if veqb k' k then Some v else assoc k rest
  end.

(** [out, ok := m[in]]: hashing an unhashable key is a run-time panic. *)
Definition map_index (entries : list (value * value)) (k : value)
  : M (value * bool) :=
  if hashable k then
    match assoc k entries with
    | Some v => ret (v, true)
    | None => ret (VNil, false)
    end
  else panic "runtime error: hash of unhashable type []interface {}".

(** [reflect.ValueOf(smap).MapIndex(reflect.ValueOf(in))], [None] for
    the invalid [reflect.Value]: a table that is no map fails the kind
    check of [MapIndex]; the key is first assigned to the key type of the
    map, which panics for the nil interface (the zero [reflect.Value], of
    no type) and for a value of another type; then the map is read. *)
Definition reflect_MapIndex (m : reflected) (k : value) : M (option value) :=
  match m with
  | RMap K entries =>
      match type_of k with
      | None =>
          panic "runtime error: invalid memory address or nil pointer dereference"
      | Some t =>
          if assignable t K then
            r <- map_index entries k ;;
            if snd r then ret (Some (fst r)) else ret None
          else
            panic ("reflect.Value.MapIndex: value of type " ++ type_name t
                   ++ " is not assignable to type " ++ key_name K)
      end
  | RValue v =>
      match type_of v with
      | None => panic "reflect: call of reflect.Value.MapIndex on zero Value"
      | Some t =>
          panic ("reflect: call of reflect.Value.MapIndex on "
                 ++ kind_name t ++ " Value")
      end
  end.

Definition Replace (m : smap) : Transducer :=
  Map (fun input =>
    match m with
    | SFind Find =>
        r <- Find input ;;
        if negb (snd r) then ret input else ret (fst r)
    | SMap entries =>
        r <- map_index entries input ;;
        if negb (snd r) then ret input else ret (fst r)
    | SOther m =>
        out <- reflect_MapIndex m input ;;
        match out with
        | None => ret input
        | Some v => ret v
        end
    end).

(** The substitution [Replace] performs with a map. *)
Definition replaced (entries : list (value * value)) (x : value) : value :=
  match assoc x entries with Some v => v | None => x end.

(** The table of [ExampleReplace], a [map[int]string]. *)
Definition number_names : smap :=
  SOther (RMap KInt
    [(VInt 2, VStr "two"); (VInt 6, VStr "six"); (VInt 18, VStr "eighteen")]).

(** The outcome [o'] of a terminating transducer against the outcome [o]
    of its downstream reducer on the inputs it forwards: the same
    accumulator up to the termination marker, Reduced exactly when [o] is
    or the transducer [stopped]; and the same panic. *)
Definition same_up_to_Reduced (o o' : outcome value) (stopped : bool) : Prop :=
  match o with
  | Ok v _ =>
      exists v' h'',
        o' = Ok v' h'' /\
        Unreduced v' = Unreduced v /\
        IsReduced v' = IsReduced v || stopped
  | Panic msg => o' = Panic msg
  end.

(** The outcome [o'] of a transducer with one captured variable [l]
    against the outcome [o] of its downstream reducer on the inputs it
    forwards: the same accumulator and the same heap but for the content
    of [l]; and the same panic. *)
Definition same_but_cell (l : loc) (o o' : outcome value) : Prop :=
  match o with
  | Ok v h' => exists w, o' = Ok v (set_cell l w h')
  | Panic msg => o' = Panic msg
  end.

(** The inputs that differ from their predecessor, [p] standing before
    the first one. *)
Fixpoint dedupe_from (p : value) (xs : list value) : list value :=
  match xs with
  | [] => []
  | x :: xs' =>
      if veqb p x then dedupe_from p xs'
      else x :: dedupe_from x xs'
  end.

(** The non-nil images [g i x] of the inputs, [i] counting every input
    from the given index. *)
Fixpoint keep_indexed (g : Z -> value -> value) (i : Z) (xs : list value)
  : list value :=
  match xs with
  | [] => []
  | x :: xs' =>
      if not_nil (g i x) then g i x :: keep_indexed g (i + 1) xs'
      else keep_indexed g (i + 1) xs'
  end.

(** The indexed mapper of [ExampleKeepIndexed]: [i * x] at the even
    indices, nil at the odd ones. *)
Definition even_index_product (i : Z) (v : value) : value :=
  match v with
  | VInt x => if Z.even i then VInt (i * x) else VNil
  | _ => VNil
  end.

(** The partitions of [n] inputs completed by the inputs [xs] when [buf]
    is already buffered, and the inputs left in the buffer. *)
Fixpoint chunks (n : Z) (buf xs : list value)
  : list (list value) * list value :=
  match xs with
  | [] => ([], buf)
  | x :: xs' =>
      let buf' := buf ++ [x] in
      if n =? Z.of_nat (length buf') then
        let (ps, rest) := chunks n [] xs' in (buf' :: ps, rest)
      else chunks n buf' xs'
  end.

(** A pending partition, if any, as the last item. *)
Definition pending (rest : list value) : list (list value) :=
  match rest with [] => [] | _ => [rest] end.

(** As [same_but_cell], and when the fold was not cut short the cell [l]
    ends up holding [content]. *)
Definition same_with_cell (l : loc) (o o' : outcome value) (content : value)
  : Prop :=
  match o with
  | Ok v h' =>
      exists w,
        o' = Ok v (set_cell l w h') /\
        (IsReduced v = false -> w = content)
  | Panic msg => o' = Panic msg
  end.

(** The maximal runs of consecutive inputs with equal keys: [x] joins the
    run that starts at its successor [y] when [k x == k y]. *)
Fixpoint groups (k : value -> value) (xs : list value) : list (list value) :=
  match xs with
  | [] => []
  | x :: xs' =>
      match groups k xs' with
      | (y :: g) :: gs =>
          if veqb (k x) (k y) then (x :: y :: g) :: gs
          else [x] :: (y :: g) :: gs
      | _ => [[x]]
      end
  end.

(** Every element has the same key as its successor. *)
Fixpoint same_keys (k : value -> value) (l : list value) : bool :=
  match l with
  | [] => true
  | a :: t =>
      match t with
      | [] => true
      | b :: _ => veqb (k a) (k b) && same_keys k t
      end
  end.

(** Parity of an int, as a key. *)
Definition odd_key (v : value) : value :=
  match v with VInt z => VBool (Z.odd z) | _ => VNil end.

Definition odd_key_fn : mapper := fun v => ret (odd_key v).

(** A traversal for [Cat] over slices, of the shape
    [func(rfn, result, input)]: it folds the elements with the step it is
    handed and, on a Reduced result, stops and returns what that box
    holds. *)
Fixpoint fold_slice (rfn : reducingFn) (acc : value) (l : list value)
  : M value :=
  match l with
  | [] => ret acc
  | x :: l' =>
      r <- rfn acc x ;;
      if IsReduced r then ret (Unreduced r) else fold_slice rfn r l'
  end.

Definition reduce_slice : reduceFn :=
  fun rfn result input =>
    match input with
    | VSlice l => fold_slice rfn result l
    | _ => panic "interface conversion: not a slice"
    end.

(** The outcome [o'] against [o]: the same accumulator and the same cells;
    and the same panic. *)
Definition same_value_and_cells (o o' : outcome value) : Prop :=
  match o with
  | Ok v h' =>
      exists h'', o' = Ok v h'' /\ cells h'' = cells h' /\
                  (IsReduced v = false -> h'' = h')
  | Panic msg => o' = Panic msg
  end.

(** An int [n] turned into the slice [n, n], as a mapper and as the
    function it computes. *)
Definition twice (v : value) : list value := [v; v].

Definition twice_fn : mapper := fun v => ret (VSlice (twice v)).

(** A key function whose keys are slices. *)
Definition slice_key_fn : mapper := fun v => ret (VSlice [v]).

(** * Properties *)

(** ** Monad laws, pointwise *)

Lemma bind_ret_l {A B : Type} (a : A) (f : A -> M B) (h : heap) :
  bind (ret a) f h = f a h.
Proof. reflexivity. Qed.

Lemma bind_ret_r {A : Type} (m : M A) (h : heap) :
  bind m ret h = m h.
Proof. unfold bind, ret. now destruct (m h). Qed.

Lemma bind_assoc {A B C : Type} (m : M A) (f : A -> M B) (g : B -> M C)
    (h : heap) :
  bind (bind m f) g h = bind m (fun a => bind (f a) g) h.
Proof. unfold bind. now destruct (m h). Qed.

Lemma bind_ext {A B : Type} (m : M A) (f g : A -> M B) (h : heap) :
  (forall a h', f a h' = g a h') -> bind m f h = bind m g h.
Proof. intros E. unfold bind. destruct (m h); auto. Qed.

(** ** Composition *)

Lemma fold_Compose_nested (rest : list Transducer) :
  forall (t0 : Transducer) (s : ReducerFn) (h : heap),
    fold_left (fun out t => Transducer_Compose out t) rest t0 s h
    = (s' <- apply_nested rest s ;; t0 s') h.
Proof.
  induction rest as [|t rest IH]; intros t0 s h.
  - reflexivity.
  - cbn [fold_left apply_nested]. rewrite IH.
    rewrite bind_assoc. reflexivity.
Qed.

Lemma Compose_apply_nested (ts : list Transducer) (s : ReducerFn) (h : heap) :
  Compose ts s h = apply_nested ts s h.
Proof.
  destruct ts as [|t0 [|t1 rest]].
  - reflexivity.
  - reflexivity.
  - unfold Compose. rewrite fold_Compose_nested. reflexivity.
Qed.

(** C1. [Compose()] is the identity, [Compose(t)] is [t], and
    [Compose(t1,...,tn)(s)] is [t1(t2(...(tn(s))...))], built from the
    pairwise law [(t1 . t2)(s) = t1(t2(s))]; so [Compose(a,b,c)(s)] is the
    very reducer [a(b(c(s)))] (same object, same heap), and driving either
    over any inputs gives the same outcome. *)
Theorem Compose_nested :
  (forall s h, Compose [] s h = Ok s h) /\
  (forall t, Compose [t] = t) /\
  (forall t1 t2 s h,
      Transducer_Compose t1 t2 s h = (s' <- t2 s ;; t1 s') h) /\
  (forall ts s h, Compose ts s h = apply_nested ts s h) /\
  (forall a b c s h,
      Compose [a; b; c] s h = (sc <- c s ;; sb <- b sc ;; a sb) h) /\
  (forall a b c s init xs h,
      (r <- Compose [a; b; c] s ;; feed (Step r) init xs) h
      = (sc <- c s ;; sb <- b sc ;; r <- a sb ;; feed (Step r) init xs) h).
Proof.
  split; [reflexivity|]. split; [reflexivity|]. split; [reflexivity|].
  split; [|split].
  - intros ts s h. apply Compose_apply_nested.
  - intros a b c s h. rewrite Compose_apply_nested. cbn [apply_nested].
    rewrite bind_assoc. apply bind_ext. intros sc h'.
    unfold bind at 2. reflexivity.
  - intros a b c s init xs h.
    unfold bind at 1. rewrite Compose_apply_nested. cbn [apply_nested].
    unfold bind, ret. destruct (c s h) as [sc h1|]; [|reflexivity].
    destruct (b sc h1) as [sb h2|]; reflexivity.
Qed.

(** ** Reducing *)

(** C9. [Reducing(step)(s)] replaces only the step stage: its [Init] is
    [s.Init], its [Result] is [s.Result] on every accumulator, and
    building it changes nothing in the heap. *)
Theorem Reducing_forwards_init_result :
  forall (step : reducingFn) (s : ReducerFn) (h : heap),
  exists r,
    Reducing step s h = Ok r h /\
    Init r = Init s /\
    (forall acc, Result r acc = Result s acc) /\
    Step r = step.
Proof.
  intros step s h. eexists. split; [reflexivity|].
  repeat split.
Qed.

(** ** The termination marker *)

(** C8. [Unreduced(Reduced(v)) = v]; [IsReduced(Reduced(v))] holds;
    a value that is not a box is not [IsReduced] and [Unreduced] leaves it
    alone; [EnsureReduced(Reduced(v))] is that same box, with no new
    allocation, while [Reduced(Reduced(v))] is a box around the box. *)
Theorem Reduced_algebra (v : value) (h : heap) (w : value)
    (Hw : forall p x, w <> VReduced p x) :
  (exists r h',
      Reduced v h = Ok r h' /\
      Unreduced r = v /\
      IsReduced r = true /\
      EnsureReduced r h' = Ok r h' /\
      exists rr h'',
        Reduced r h' = Ok rr h'' /\
        rr <> r /\
        Unreduced rr = r /\
        IsReduced (Unreduced rr) = true /\
        Unreduced (Unreduced rr) = v) /\
  IsReduced w = false /\
  Unreduced w = w /\
  EnsureReduced w h = Reduced w h.
Proof.
  split.
  - do 2 eexists. split; [reflexivity|]. repeat split.
    do 2 eexists. split; [reflexivity|]. repeat split.
    cbn. intros E. injection E as E _. lia.
  - assert (IsReduced w = false) as E.
    { destruct w; try reflexivity. exfalso. eapply Hw. reflexivity. }
    unfold Unreduced, EnsureReduced. rewrite E. auto.
Qed.

Lemma Reduced_algebra_witness :
  (exists r h',
      Reduced (VInt 1) empty_heap = Ok r h' /\
      Unreduced r = VInt 1 /\
      IsReduced r = true /\
      EnsureReduced r h' = Ok r h' /\
      exists rr h'',
        Reduced r h' = Ok rr h'' /\
        rr <> r /\
        Unreduced rr = r /\
        IsReduced (Unreduced rr) = true /\
        Unreduced (Unreduced rr) = VInt 1) /\
  IsReduced (VStr "a") = false /\
  Unreduced (VStr "a") = VStr "a" /\
  EnsureReduced (VStr "a") empty_heap = Reduced (VStr "a") empty_heap.
Proof.
  apply (Reduced_algebra (VInt 1) empty_heap (VStr "a")).
  intros p x. discriminate.
Defined.

(** ** Symbolic execution of step bodies *)

Ltac go_unfold :=
  cbv [bind ret panic load_int load_bool load_slice load store alloc
       Reducing Reducer wrapInit wrapResult wrapReducing wrapMapper
       wrapPredicate wrapReduce];
  cbn [Step Init Result cells fresh].

(** ** Private cells and downstream steps *)

Lemma keeps_appending (l : loc) (result input : value) :
  keeps l (Step appending result input).
Proof.
  intros h a h'. cbn. destruct result; cbn; try discriminate.
  unfold ret. intros E. injection E as _ <-. reflexivity.
Qed.

(** ** Cat and the preserving-reduced adapter *)

(** C3. [Cat(traverse)(rf)] gives [traverse] the step of
    [PreservingReduced(rf)]: a Reduced value returned by [rf.Step] comes
    back wrapped in a second, fresh Reduced, any other value comes back as
    it is; and the step of [Cat] is the result of [traverse], returned
    without unwrapping.  With the pass-through traversal over a sink that
    stops, the step of [Cat] returns the doubly wrapped accumulator. *)
Theorem Cat_preserving_reduced :
  (forall (traverse : reduceFn) (rf : ReducerFn) (h : heap),
   exists r,
     Cat traverse rf h = Ok r h /\
     (forall result input h1,
         Step r result input h1
         = traverse (Step (PreservingReduced rf)) result input h1) /\
     (forall result input h1,
         Step (PreservingReduced rf) result input h1
         = match Step rf result input h1 with
           | Ok r0 h2 =>
               if IsReduced r0
               then Ok (VReduced (fresh h2) r0) (Heap (cells h2) (S (fresh h2)))
               else Ok r0 h2
           | Panic msg => Panic msg
           end)) /\
  (exists r out h',
     Cat ExampleCat_reduce stopping empty_heap = Ok r empty_heap /\
     Step r (VInt 0) (VInt 1) empty_heap = Ok out h' /\
     out = VReduced 1%nat (VReduced 0%nat (VInt 0)) /\
     IsReduced out = true /\ IsReduced (Unreduced out) = true).
Proof.
  split.
  - intros traverse rf h. eexists. split; [reflexivity|]. split.
    + reflexivity.
    + intros result input h1. unfold PreservingReduced. go_unfold.
      destruct (Step rf result input h1) as [r0 h2|msg]; [|reflexivity].
      destruct (IsReduced r0); reflexivity.
  - do 3 eexists. split; [reflexivity|]. split; [reflexivity|].
    repeat split.
Qed.

(** ** Interpose *)

Lemma Interpose_apply (sep : value) (rf : ReducerFn) (h0 : heap) :
  exists r,
    Interpose sep rf h0
    = Ok r (Heap (<[fresh h0 := VBool false]> (cells h0)) (S (fresh h0))) /\
    Init r = Init rf /\ Result r = Result rf /\
    forall result input h,
      Step r result input h
      = (b <- load_bool (fresh h0) ;;
         if b then
           sepr <- Step rf result sep ;;
           if IsReduced sepr then ret sepr else Step rf sepr input
         else
           store (fresh h0) (VBool true) ;;;
           Step rf result input) h.
Proof. eexists. split; [reflexivity|]. repeat split. Qed.

Lemma feed_Interpose_started (sep : value) (started : loc) (step : reducingFn) :
  (forall result input h,
      step result input h
      = (b <- load_bool started ;;
         if b then
           sepr <- Step appending result sep ;;
           if IsReduced sepr then ret sepr else Step appending sepr input
         else
           store started (VBool true) ;;;
           Step appending result input) h) ->
  forall xs acc h,
    cells h !! started = Some (VBool true) ->
    feed step (VSlice acc) xs h
    = Ok (VSlice (acc ++ flat_map (fun y => [sep; y]) xs)) h.
Proof.
  intros Hstep. induction xs as [|x xs IH]; intros acc h Hc.
  - cbn. now rewrite app_nil_r.
  - cbn [feed flat_map]. unfold bind at 1. rewrite Hstep.
    go_unfold. rewrite Hc. cbn.
    rewrite IH by assumption.
    now rewrite <- !app_assoc.
Qed.

(** C7. The first input goes straight to the downstream step (and the
    [started] flag is set); from then on [sep] is forwarded first, a
    Reduced result of that sub-step is returned at once without
    forwarding the input, otherwise the input is forwarded on the
    accumulator the [sep] sub-step produced.  The flag is set after every
    completed step, so only the first input finds it clear.  Over any
    inputs the items forwarded are the inputs with [sep] in between; over
    ["a","b","c"] with "/" they are ["a","/","b","/","c"]. *)
Theorem Interpose_step (sep : value) (rf : ReducerFn) (h0 : heap)
    (result input : value) (h : heap) (b : bool)
    (Hstarted : cells h !! fresh h0 = Some (VBool b))
    (Hkeeps : forall acc x, keeps (fresh h0) (Step rf acc x)) :
  (exists r h1,
     Interpose sep rf h0 = Ok r h1 /\
     cells h1 !! fresh h0 = Some (VBool false) /\
     Step r result input h
     = (if b then
          match Step rf result sep h with
          | Ok sepr h' =>
              if IsReduced sepr then Ok sepr h' else Step rf sepr input h'
          | Panic msg => Panic msg
          end
        else
          Step rf result input
            (Heap (<[fresh h0 := VBool true]> (cells h)) (fresh h))) /\
     match Step r result input h with
     | Ok _ h' => cells h' !! fresh h0 = Some (VBool true)
     | Panic _ => True
     end) /\
  (forall xs,
     value_of (transduce (Interpose sep) appending (VSlice []) xs empty_heap)
     = Some (VSlice (interposed sep xs))) /\
  value_of (transduce (Interpose (VStr "/")) appending (VSlice [])
              [VStr "a"; VStr "b"; VStr "c"] empty_heap)
  = Some (VSlice [VStr "a"; VStr "/"; VStr "b"; VStr "/"; VStr "c"]).
Proof.
  split; [|split].
  - destruct (Interpose_apply sep rf h0) as (r & Happ & _ & _ & Hstep).
    exists r. eexists. split; [exact Happ|]. split.
    { cbn. apply lookup_insert_eq. }
    assert (Step r result input h
            = (if b then
                 match Step rf result sep h with
                 | Ok sepr h' =>
                     if IsReduced sepr then Ok sepr h'
                     else Step rf sepr input h'
                 | Panic msg => Panic msg
                 end
               else
                 Step rf result input
                   (Heap (<[fresh h0 := VBool true]> (cells h)) (fresh h))))
      as Heq.
    { rewrite Hstep. go_unfold. rewrite Hstarted.
      destruct b; [|reflexivity].
      destruct (Step rf result sep h) as [sepr h'|]; [|reflexivity].
      destruct (IsReduced sepr); reflexivity. }
    split; [exact Heq|]. rewrite Heq. destruct b.
    + destruct (Step rf result sep h) as [sepr h'|] eqn:Esep; [|exact I].
      pose proof (Hkeeps _ _ _ _ _ Esep) as Hk1. rewrite Hstarted in Hk1.
      destruct (IsReduced sepr); [exact Hk1|].
      destruct (Step rf sepr input h') as [v h2|] eqn:Ein; [|exact I].
      rewrite (Hkeeps _ _ _ _ _ Ein). exact Hk1.
    + destruct (Step rf result input _) as [v h'|] eqn:Ein; [|exact I].
      rewrite (Hkeeps _ _ _ _ _ Ein). cbn. apply lookup_insert_eq.
  - intros xs.
    destruct (Interpose_apply sep appending empty_heap)
      as (r & Happ & _ & Hres & Hstep).
    unfold transduce. unfold bind at 1. rewrite Happ.
    destruct xs as [|x xs].
    + cbn. rewrite Hres. reflexivity.
    + unfold bind at 1. cbn [feed]. unfold bind at 1.
      rewrite Hstep. go_unfold. cbn [empty_heap].
      rewrite lookup_insert_eq. cbn.
      rewrite (feed_Interpose_started sep 0%nat (Step r) Hstep xs [x])
        by apply lookup_insert_eq.
      rewrite Hres. reflexivity.
  - vm_compute. reflexivity.
Qed.

Lemma Interpose_step_witness :
  cells (Heap {[ 0%nat := VBool true ]} 1%nat) !! fresh empty_heap
  = Some (VBool true) /\
  exists r h1,
    Interpose (VStr "/") appending empty_heap = Ok r h1 /\
    Step r (VSlice [VStr "a"]) (VStr "b") (Heap {[ 0%nat := VBool true ]} 1%nat)
    = Ok (VSlice [VStr "a"; VStr "/"; VStr "b"])
         (Heap {[ 0%nat := VBool true ]} 1%nat).
Proof.
  split; [reflexivity|].
  destruct (Interpose_step (VStr "/") appending empty_heap
              (VSlice [VStr "a"]) (VStr "b")
              (Heap {[ 0%nat := VBool true ]} 1%nat) true)
    as [(r & h1 & Happ & _ & Hstep & _) _].
  - reflexivity.
  - intros acc x. apply keeps_appending.
  - exists r, h1. split; [exact Happ|]. exact Hstep.
Defined.

(** ** PartitionBy *)

(** C5. On an input whose key differs from the previous key (and the
    previous key is not the initial marker) the step hands the downstream
    step the buffered partition as one item, with the buffer already
    reset; when that flush returns a Reduced value the value is returned
    at once and the buffer stays empty (the input is dropped), otherwise
    the new buffer holds just the current input. *)
Theorem PartitionBy_key_change (f : mapper) (rf : ReducerFn) (h0 : heap)
    (result input val pval : value) (buf : list value) (h hk : heap)
    (Hkey : f input h = Ok val hk)
    (Hprior : cells hk !! S (S (fresh h0)) = Some pval)
    (Hpart : cells hk !! fresh h0 = Some (VSlice buf))
    (Hmark : eq_ptr pval (S (fresh h0)) = false)
    (Hdiff : forall h', go_eq pval val h' = Ok false h')
    (Hframe : keeps (fresh h0) (Step rf result (VSlice buf))) :
  exists r h1,
    PartitionBy f rf h0 = Ok r h1 /\
    let flushing :=
      Heap (<[fresh h0 := VSlice []]> (<[S (S (fresh h0)) := val]> (cells hk)))
           (fresh hk) in
    Step r result input h
    = match Step rf result (VSlice buf) flushing with
      | Ok r0 h' =>
          if IsReduced r0 then Ok r0 h'
          else Ok r0 (Heap (<[fresh h0 := VSlice [input]]> (cells h')) (fresh h'))
      | Panic msg => Panic msg
      end /\
    match Step rf result (VSlice buf) flushing with
    | Ok r0 h' => cells h' !! fresh h0 = Some (VSlice [])
    | Panic _ => True
    end.
Proof.
  do 2 eexists. split; [reflexivity|]. intros flushing.
  assert (Hempty : forall r0 h', Step rf result (VSlice buf) flushing = Ok r0 h'
                     -> cells h' !! fresh h0 = Some (VSlice [])).
  { intros r0 h' E. rewrite (Hframe _ _ _ E). subst flushing. cbn.
    apply lookup_insert_eq. }
  split.
  - go_unfold. rewrite Hkey. rewrite Hprior. cbn.
    rewrite Hmark. rewrite Hdiff. cbn.
    rewrite lookup_insert_ne by lia. rewrite Hpart. cbn.
    fold flushing.
    destruct (Step rf result (VSlice buf) flushing) as [r0 h'|msg] eqn:E;
      [|reflexivity].
    destruct (IsReduced r0); [reflexivity|]. cbn.
    rewrite (Hempty _ _ eq_refl). reflexivity.
  - destruct (Step rf result (VSlice buf) flushing) as [r0 h'|msg] eqn:E;
      [|exact I].
    eapply Hempty. reflexivity.
Qed.

Lemma PartitionBy_key_change_witness :
  isOdd (VInt 2) buffered_1_1 = Ok (VBool false) buffered_1_1 /\
  exists r h1,
    PartitionBy isOdd appending empty_heap = Ok r h1 /\
    Step r (VSlice []) (VInt 2) buffered_1_1
    = Ok (VSlice [VSlice [VInt 1; VInt 1]])
         (Heap (<[0%nat := VSlice [VInt 2]]>
                  (<[0%nat := VSlice []]>
                     (<[2%nat := VBool false]> (cells buffered_1_1))))
               3%nat).
Proof.
  split; [reflexivity|].
  destruct (PartitionBy_key_change isOdd appending empty_heap
              (VSlice []) (VInt 2) (VBool false) (VBool true)
              [VInt 1; VInt 1] buffered_1_1 buffered_1_1)
    as (r & h1 & Happ & Hstep & _).
  - reflexivity.
  - reflexivity.
  - reflexivity.
  - reflexivity.
  - intros h'. reflexivity.
  - apply keeps_appending.
  - exists r, h1. split; [exact Happ|]. exact Hstep.
Defined.

(** ** Integers *)

Ltac int_lia := unfold is_int, int_min, int_max in *; lia.

Lemma wrap_id (z : Z) : is_int z -> wrap z = z.
Proof.
  unfold is_int, int_min, int_max, wrap. intros Hz.
  rewrite Z.mod_small by lia. lia.
Qed.

Lemma int_sub_int_min : int_sub int_min 1 = int_max.
Proof. reflexivity. Qed.

(** ** Take *)

Lemma Take_apply (n : Z) (rf : ReducerFn) (h0 : heap) :
  exists r,
    Take n rf h0
    = Ok r (Heap (<[fresh h0 := VInt n]> (cells h0)) (S (fresh h0))) /\
    Init r = Init rf /\ Result r = Result rf /\
    forall result input h,
      Step r result input h
      = (current <- load_int (fresh h0) ;;
         let next := int_sub current 1 in
         store (fresh h0) (VInt next) ;;;
         result <- (if 0 <? current then Step rf result input
                    else ret result) ;;
         if 0 <? next then ret result
         else EnsureReduced result) h.
Proof. eexists. split; [reflexivity|]. repeat split. Qed.

(** One step of [Take] when decrementing the counter does not overflow:
    the input is forwarded while the counter is positive, and the step
    that brings the counter to zero (or finds it there or below) returns
    [EnsureReduced] of the accumulator it has at that point. *)
Lemma Take_step_in_range (n : Z) (rf : ReducerFn) (h0 : heap)
    (result input : value) (h : heap) (c : Z)
    (Hc : int_min < c <= int_max)
    (Hcount : cells h !! fresh h0 = Some (VInt c)) :
  exists r h1,
    Take n rf h0 = Ok r h1 /\
    cells h1 !! fresh h0 = Some (VInt n) /\
    let h' := Heap (<[fresh h0 := VInt (c - 1)]> (cells h)) (fresh h) in
    Step r result input h
    = if 0 <? c then
        match Step rf result input h' with
        | Ok r0 h2 => if 1 <? c then Ok r0 h2 else EnsureReduced r0 h2
        | Panic msg => Panic msg
        end
      else EnsureReduced result h'.
Proof.
  destruct (Take_apply n rf h0) as (r & Happ & _ & _ & Hstep).
  exists r. eexists. split; [exact Happ|]. split.
  - cbn. apply lookup_insert_eq.
  - intros h'. rewrite Hstep. go_unfold. rewrite Hcount. cbn.
    unfold int_sub. rewrite wrap_id by int_lia.
    fold h'. destruct (0 <? c) eqn:Epos.
    + destruct (Step rf result input h') as [r0 h2|msg]; [|reflexivity].
      replace (0 <? c - 1) with (1 <? c) by lia.
      destruct (1 <? c); reflexivity.
    + replace (0 <? c - 1) with false by lia. reflexivity.
Qed.

Lemma feed_Take_appending (l : loc) (step : reducingFn) :
  (forall result input h,
      step result input h
      = (current <- load_int l ;;
         let next := int_sub current 1 in
         store l (VInt next) ;;;
         result <- (if 0 <? current then Step appending result input
                    else ret result) ;;
         if 0 <? next then ret result
         else EnsureReduced result) h) ->
  forall xs c acc h,
    int_min < c <= int_max ->
    cells h !! l = Some (VInt c) ->
    exists v h',
      feed step (VSlice acc) xs h = Ok v h' /\
      Unreduced v = VSlice (acc ++ firstn (Z.to_nat c) xs).
Proof.
  intros Hstep. induction xs as [|x xs IH]; intros c acc h Hc Hcell.
  - cbn. do 2 eexists. split; [reflexivity|].
    rewrite firstn_nil, app_nil_r. reflexivity.
  - cbn [feed]. unfold bind at 1. rewrite Hstep.
    go_unfold. rewrite Hcell. cbn.
    unfold int_sub. rewrite wrap_id by int_lia.
    destruct (0 <? c) eqn:Epos.
    + cbn. destruct (0 <? c - 1) eqn:Enext.
      * cbn.
        edestruct (IH (c - 1) (acc ++ [x])) as (v & h' & Hfeed & Hv);
          [| |rewrite Hfeed].
        -- int_lia.
        -- cbn. apply lookup_insert_eq.
        -- do 2 eexists. split; [reflexivity|]. rewrite Hv.
           replace (Z.to_nat c) with (S (Z.to_nat (c - 1))) by lia.
           cbn [firstn]. now rewrite <- app_assoc.
      * cbn. do 2 eexists. split; [reflexivity|]. cbn.
        replace (Z.to_nat c) with 1%nat by lia.
        cbn [firstn]. reflexivity.
    + cbn. replace (0 <? c - 1) with false by lia. cbn.
      do 2 eexists. split; [reflexivity|]. cbn.
      replace (Z.to_nat c) with 0%nat by lia.
      cbn. now rewrite app_nil_r.
Qed.

(** Driven over any inputs into the appending sink, [Take(n)] forwards the
    first [n] inputs (none for [n <= 0]), for every [n] but the least
    int. *)
Lemma Take_forwards_firstn (n : Z) (xs : list value) :
  int_min < n <= int_max ->
  value_of (transduce (Take n) appending (VSlice []) xs empty_heap)
  = Some (VSlice (firstn (Z.to_nat n) xs)).
Proof.
  intros Hn.
  destruct (Take_apply n appending empty_heap)
    as (r & Happ & _ & Hres & Hstep).
  unfold transduce. unfold bind at 1. rewrite Happ.
  set (h1 := Heap _ _).
  destruct (feed_Take_appending 0%nat (Step r) Hstep xs n [] h1 Hn)
    as (v & h' & Hfeed & Hv).
  { apply lookup_insert_eq. }
  unfold bind at 1. rewrite Hfeed.
  rewrite Hres, Hv. reflexivity.
Qed.

(** C2, at the least int.  [Take(n)] with [n = -2^63]: the decrement
    [count - 1] wraps to [2^63 - 1], so the first step returns the
    accumulator as it is, not Reduced, and every later input is
    forwarded; over [1, 2, 3] the sink receives [2, 3]. *)
Theorem Take_int_min_not_Reduced :
  int_min <= 0 /\
  (forall rf h0 result input,
   exists r h1,
     Take int_min rf h0 = Ok r h1 /\
     Step r result input h1
     = Ok result (Heap (<[fresh h0 := VInt int_max]> (cells h1)) (fresh h1))) /\
  (exists r,
     Take int_min appending empty_heap
     = Ok r (Heap {[ 0%nat := VInt int_min ]} 1%nat) /\
     Step r (VSlice []) (VInt 1) (Heap {[ 0%nat := VInt int_min ]} 1%nat)
     = Ok (VSlice []) (Heap {[ 0%nat := VInt int_max ]} 1%nat) /\
     IsReduced (VSlice []) = false /\
     Step r (VSlice []) (VInt 2) (Heap {[ 0%nat := VInt int_max ]} 1%nat)
     = Ok (VSlice [VInt 2]) (Heap {[ 0%nat := VInt (int_max - 1) ]} 1%nat)) /\
  value_of (transduce (Take int_min) appending (VSlice [])
              [VInt 1; VInt 2; VInt 3] empty_heap)
  = Some (VSlice [VInt 2; VInt 3]).
Proof.
  split; [unfold int_min; lia|]. split; [|split].
  - intros rf h0 result input.
    destruct (Take_apply int_min rf h0) as (r & Happ & _ & _ & Hstep).
    exists r. eexists. split; [exact Happ|].
    rewrite Hstep. go_unfold. rewrite lookup_insert_eq. reflexivity.
  - eexists. split; [reflexivity|].
    split; [vm_compute; reflexivity|].
    split; [reflexivity|]. vm_compute. reflexivity.
  - vm_compute. reflexivity.
Qed.

(** ** Dedupe *)

Lemma Dedupe_apply (rf : ReducerFn) (h0 : heap) :
  exists r,
    Dedupe rf h0
    = Ok r (Heap (<[fresh h0 := VNil]> (cells h0)) (S (fresh h0))) /\
    Init r = Init rf /\ Result r = Result rf /\
    forall result input h,
      Step r result input h
      = (p <- load (fresh h0) ;;
         same <- go_eq p input ;;
         if same then ret result
         else
           store (fresh h0) input ;;;
           Step rf result input) h.
Proof. eexists. split; [reflexivity|]. repeat split. Qed.

(** One step of [Dedupe]: the input is compared with the value held in
    [prior]; an equal input is skipped, any other becomes the new [prior]
    and is forwarded. *)
Lemma Dedupe_step (rf : ReducerFn) (h0 : heap) (result input : value)
    (h : heap) (p : value) (same : bool)
    (Hprior : cells h !! fresh h0 = Some p)
    (Hsame : go_eq p input h = Ok same h) :
  exists r h1,
    Dedupe rf h0 = Ok r h1 /\
    cells h1 !! fresh h0 = Some VNil /\
    Step r result input h
    = if same then Ok result h
      else Step rf result input
             (Heap (<[fresh h0 := input]> (cells h)) (fresh h)).
Proof.
  destruct (Dedupe_apply rf h0) as (r & Happ & _ & _ & Hstep).
  exists r. eexists. split; [exact Happ|]. split.
  - cbn. apply lookup_insert_eq.
  - rewrite Hstep. go_unfold. rewrite Hprior, Hsame.
    destruct same; reflexivity.
Qed.

(** C4, on a leading nil.  [prior] starts as the nil interface, not as a
    private marker: a first input that is nil compares equal to it, so
    the step returns the accumulator and leaves the heap as it is, and
    the downstream step is not called.  Over [nil, 1, 1] the sink
    receives [1] only. *)
Theorem Dedupe_drops_leading_nil :
  (forall rf h0 result,
   exists r h1,
     Dedupe rf h0 = Ok r h1 /\
     cells h1 !! fresh h0 = Some VNil /\
     Step r result VNil h1 = Ok result h1) /\
  value_of (transduce Dedupe appending (VSlice [])
              [VNil; VInt 1; VInt 1] empty_heap)
  = Some (VSlice [VInt 1]) /\
  value_of (transduce Dedupe appending (VSlice [])
              [VInt 1; VInt 1; VNil] empty_heap)
  = Some (VSlice [VInt 1; VNil]).
Proof.
  split; [|split].
  - intros rf h0 result.
    destruct (Dedupe_apply rf h0) as (r & Happ & _ & _ & Hstep).
    exists r. eexists. split; [exact Happ|]. split.
    + cbn. apply lookup_insert_eq.
    + rewrite Hstep. go_unfold. rewrite lookup_insert_eq. reflexivity.
  - vm_compute. reflexivity.
  - vm_compute. reflexivity.
Qed.

(** ** Finishing a partition *)

Lemma make_slice_in_range (n : Z) :
  0 <= n <= max_cap -> make_slice n = ret (VSlice []).
Proof.
  intros Hn. unfold make_slice.
  replace (n <? 0) with false by lia.
  replace (max_cap <? n) with false by lia. reflexivity.
Qed.

Lemma PartitionAll_beyond_capacity (n : Z) (rf : ReducerFn) (h0 : heap) :
  max_cap < n ->
  PartitionAll n rf h0 = Panic "runtime error: makeslice: cap out of range".
Proof.
  intros Hn. unfold PartitionAll, make_slice, bind.
  replace (max_cap <? n) with true by lia.
  rewrite orb_true_r. reflexivity.
Qed.

Lemma PartitionAll_apply (n : Z) (rf : ReducerFn) (h0 : heap) :
  0 <= n <= max_cap ->
  exists r,
    PartitionAll n rf h0
    = Ok r (Heap (<[fresh h0 := VSlice []]> (cells h0)) (S (fresh h0))) /\
    Init r = Init rf /\
    forall result h,
      Result r result h
      = (p <- load_slice (fresh h0) ;;
         if 0 <? Z.of_nat (length p) then
           let cpy := VSlice p in
           s <- make_slice n ;;
           store (fresh h0) s ;;;
           r0 <- Step rf result cpy ;;
           Result rf r0
         else Result rf result) h.
Proof.
  intros Hn. unfold PartitionAll. rewrite (make_slice_in_range n Hn).
  eexists. split; [reflexivity|]. repeat split.
Qed.

(** Finishing [PartitionAll] with a pending partition: the partition is
    forwarded, and the sink's [Result] is run on what that step returned,
    as it is. *)
Lemma PartitionAll_Result_flush (n : Z) (rf : ReducerFn) (h0 : heap)
    (result x : value) (buf : list value) (h : heap)
    (Hn : 0 <= n <= max_cap)
    (Hpart : cells h !! fresh h0 = Some (VSlice (x :: buf))) :
  exists r h1,
    PartitionAll n rf h0 = Ok r h1 /\
    Result r result h
    = match Step rf result (VSlice (x :: buf))
              (Heap (<[fresh h0 := VSlice []]> (cells h)) (fresh h)) with
      | Ok r0 h' => Result rf r0 h'
      | Panic msg => Panic msg
      end.
Proof.
  destruct (PartitionAll_apply n rf h0 Hn) as (r & Happ & _ & Hres).
  exists r. eexists. split; [exact Happ|].
  rewrite Hres. rewrite (make_slice_in_range n Hn).
  go_unfold. rewrite Hpart. reflexivity.
Qed.

(** Finishing [PartitionBy] with a pending partition: the same flush, but
    the sink's [Result] is run on [Unreduced] of what the step returned. *)
Lemma PartitionBy_Result_flush (f : mapper) (rf : ReducerFn) (h0 : heap)
    (result x : value) (buf : list value) (h : heap)
    (Hpart : cells h !! fresh h0 = Some (VSlice (x :: buf))) :
  exists r h1,
    PartitionBy f rf h0 = Ok r h1 /\
    Result r result h
    = match Step rf result (VSlice (x :: buf))
              (Heap (<[fresh h0 := VSlice []]> (cells h)) (fresh h)) with
      | Ok r0 h' => Result rf (Unreduced r0) h'
      | Panic msg => Panic msg
      end.
Proof.
  do 2 eexists. split; [reflexivity|].
  go_unfold. rewrite Hpart. reflexivity.
Qed.

(** C6, for [PartitionAll].  With one input buffered, finishing
    [PartitionAll(2)] over a sink whose step returns a Reduced value hands
    that Reduced value to the sink's [Result]; [PartitionBy] in the same
    situation hands it the unwrapped accumulator.  In the pipeline
    [Compose(PartitionAll(2), Take(1))] over the appending sink the final
    result is therefore still wrapped. *)
Theorem PartitionAll_Result_on_Reduced :
  value_of ((r <- PartitionAll 2 observing ;;
             acc <- Step r VNil (VInt 1) ;;
             Result r acc) empty_heap)
  = Some (VBool true) /\
  value_of ((r <- PartitionBy isOdd observing ;;
             acc <- Step r VNil (VInt 1) ;;
             Result r acc) empty_heap)
  = Some (VBool false) /\
  value_of (transduce (Compose [PartitionAll 2; Take 1]) appending
              (VSlice []) [VInt 1] empty_heap)
  = Some (VReduced 2%nat (VSlice [VSlice [VInt 1]])) /\
  value_of (transduce (Compose [PartitionBy isOdd; Take 1]) appending
              (VSlice []) [VInt 1] empty_heap)
  = Some (VSlice [VSlice [VInt 1]]).
Proof.
  repeat split; vm_compute; reflexivity.
Qed.

(** ** TakeNth *)

Lemma TakeNth_apply (n : Z) (rf : ReducerFn) (h0 : heap) :
  exists r,
    TakeNth n rf h0
    = Ok r (Heap (<[fresh h0 := VInt 0]> (cells h0)) (S (fresh h0))) /\
    Init r = Init rf /\ Result r = Result rf /\
    forall result input h,
      Step r result input h
      = (c <- load_int (fresh h0) ;;
         let c := int_add c 1 in
         store (fresh h0) (VInt c) ;;;
         r <- int_rem c n ;;
         if r =? 0 then Step rf result input
         else ret result) h.
Proof. eexists. split; [reflexivity|]. repeat split. Qed.

Lemma rem_is_mod (a n : Z) : 0 <= a -> 1 <= n -> Z.rem a n = a mod n.
Proof. intros Ha Hn. apply Z.rem_mod_nonneg; lia. Qed.

Lemma feed_TakeNth_appending (n : Z) (l : loc) (step : reducingFn) :
  1 <= n ->
  (forall result input h,
      step result input h
      = (c <- load_int l ;;
         let c := int_add c 1 in
         store l (VInt c) ;;;
         r <- int_rem c n ;;
         if r =? 0 then Step appending result input
         else ret result) h) ->
  forall xs c acc h,
    0 <= c ->
    c + Z.of_nat (length xs) <= int_max ->
    cells h !! l = Some (VInt c) ->
    exists h',
      feed step (VSlice acc) xs h
      = Ok (VSlice (acc ++ every_nth n (c + 1) xs)) h'.
Proof.
  intros Hn Hstep. induction xs as [|x xs IH]; intros c acc h Hc Hlen Hcell.
  - cbn. eexists. now rewrite app_nil_r.
  - cbn [feed every_nth]. unfold bind at 1. rewrite Hstep.
    cbn [length] in Hlen.
    go_unfold. rewrite Hcell. cbn.
    unfold int_add. rewrite wrap_id by int_lia.
    unfold int_rem. replace (n =? 0) with false by lia.
    go_unfold. rewrite rem_is_mod by lia.
    destruct (IH (c + 1)
                (if (c + 1) mod n =? 0 then acc ++ [x] else acc)
                (Heap (<[l := VInt (c + 1)]> (cells h)) (fresh h)))
      as (h' & Hfeed).
    { lia. }
    { lia. }
    { cbn. apply lookup_insert_eq. }
    exists h'. destruct ((c + 1) mod n =? 0).
    + cbn. rewrite Hfeed. now rewrite <- app_assoc.
    + cbn. exact Hfeed.
Qed.

(** The count past the greatest int: the trace of the step with the
    count as the code keeps it. *)
Lemma wrap_succ (a : Z) : wrap (wrap a + 1) = wrap (a + 1).
Proof.
  unfold wrap.
  replace ((a + 2 ^ 63) mod 2 ^ 64 - 2 ^ 63 + 1 + 2 ^ 63)
    with ((a + 2 ^ 63) mod 2 ^ 64 + 1) by ring.
  rewrite Zplus_mod_idemp_l.
  replace (a + 2 ^ 63 + 1) with (a + 1 + 2 ^ 63) by ring.
  reflexivity.
Qed.

Lemma every_nth_int_app (n : Z) (xs : list value) :
  forall a ys,
    every_nth_int n (wrap a) (xs ++ ys)
    = every_nth_int n (wrap a) xs
      ++ every_nth_int n (wrap (a + Z.of_nat (length xs))) ys.
Proof.
  induction xs as [|x xs IH]; intros a ys.
  - cbn [every_nth_int app length]. now rewrite Z.add_0_r.
  - cbn [every_nth_int app length]. unfold int_add. rewrite wrap_succ.
    rewrite IH.
    replace (a + 1 + Z.of_nat (length xs))
      with (a + Z.of_nat (S (length xs))) by lia.
    destruct (Z.rem (wrap (a + 1)) n =? 0); reflexivity.
Qed.

Lemma every_nth_int_In (n : Z) (y : value) (xs : list value) :
  forall c, In y (every_nth_int n c xs) -> In y xs.
Proof.
  induction xs as [|x xs IH]; intros c Hin; [exact Hin|].
  cbn [every_nth_int] in Hin.
  destruct (Z.rem (int_add c 1) n =? 0).
  - destruct Hin as [<-|Hin]; [now left|]. right. exact (IH _ Hin).
  - right. exact (IH _ Hin).
Qed.

Lemma every_nth_app (n : Z) (xs : list value) :
  forall pos ys,
    every_nth n pos (xs ++ ys)
    = every_nth n pos xs ++ every_nth n (pos + Z.of_nat (length xs)) ys.
Proof.
  induction xs as [|x xs IH]; intros pos ys.
  - cbn [every_nth app length]. now rewrite Z.add_0_r.
  - cbn [every_nth app length]. rewrite IH.
    replace (pos + 1 + Z.of_nat (length xs))
      with (pos + Z.of_nat (S (length xs))) by lia.
    destruct (pos mod n =? 0); reflexivity.
Qed.

Lemma feed_TakeNth_appending_int (n : Z) (l : loc) (step : reducingFn) :
  n <> 0 ->
  (forall result input h,
      step result input h
      = (c <- load_int l ;;
         let c := int_add c 1 in
         store l (VInt c) ;;;
         r <- int_rem c n ;;
         if r =? 0 then Step appending result input
         else ret result) h) ->
  forall xs c acc h,
    cells h !! l = Some (VInt c) ->
    exists h',
      feed step (VSlice acc) xs h
      = Ok (VSlice (acc ++ every_nth_int n c xs)) h'.
Proof.
  intros Hn Hstep. induction xs as [|x xs IH]; intros c acc h Hcell.
  - cbn. eexists. now rewrite app_nil_r.
  - cbn [feed every_nth_int]. unfold bind at 1. rewrite Hstep.
    go_unfold. rewrite Hcell. cbn.
    unfold int_rem. replace (n =? 0) with false by lia.
    go_unfold.
    destruct (IH (int_add c 1)
                (if Z.rem (int_add c 1) n =? 0 then acc ++ [x] else acc)
                (Heap (<[l := VInt (int_add c 1)]> (cells h)) (fresh h)))
      as (h' & Hfeed).
    { cbn. apply lookup_insert_eq. }
    exists h'. destruct (Z.rem (int_add c 1) n =? 0).
    + cbn. rewrite Hfeed. now rewrite <- app_assoc.
    + cbn. exact Hfeed.
Qed.

(** A run of [N] zeros and a one, [N] being [2^63], through [TakeNth(3)]
    into the appending sink: the one sits at a position divisible by 3,
    and the sink does not receive it. *)
Lemma TakeNth_long_run (N : nat) (r : ReducerFn) (h1 : heap) :
  Z.of_nat N = 2 ^ 63 ->
  TakeNth 3 appending empty_heap = Ok r h1 ->
  Z.of_nat (length (repeat (VInt 0) N ++ [VInt 1])) = 2 ^ 63 + 1 /\
  In (VInt 1) (every_nth 3 1 (repeat (VInt 0) N ++ [VInt 1])) /\
  exists out h2,
    feed (Step r) (VSlice []) (repeat (VInt 0) N ++ [VInt 1]) h1
    = Ok (VSlice out) h2 /\
    ~ In (VInt 1) out.
Proof.
  intros HN Happ. split; [|split].
  - rewrite length_app, repeat_length, Nat2Z.inj_add, HN. reflexivity.
  - rewrite every_nth_app, repeat_length, HN. apply in_or_app. right.
    replace (every_nth 3 (1 + 2 ^ 63) [VInt 1]) with [VInt 1]
      by (vm_compute; reflexivity).
    now left.
  - destruct (TakeNth_apply 3 appending empty_heap)
      as (r' & Happ' & _ & _ & Hstep).
    rewrite Happ in Happ'. injection Happ' as <- ->.
    destruct (feed_TakeNth_appending_int 3 (fresh empty_heap) (Step r)
                ltac:(lia) Hstep (repeat (VInt 0) N ++ [VInt 1]) 0 []
                (Heap (<[fresh empty_heap := VInt 0]> (cells empty_heap))
                      (S (fresh empty_heap))))
      as (h2 & Hfeed).
    { apply lookup_insert_eq. }
    eexists. exists h2. split; [exact Hfeed|].
    cbn [app].
    pose proof (every_nth_int_app 3 (repeat (VInt 0) N) 0 [VInt 1]) as Hsplit.
    change (wrap 0) with 0 in Hsplit.
    rewrite Hsplit, repeat_length, HN.
    replace (every_nth_int 3 (wrap (0 + 2 ^ 63)) [VInt 1]) with (@nil value)
      by (vm_compute; reflexivity).
    rewrite app_nil_r. intros Hin.
    apply every_nth_int_In in Hin. apply repeat_spec in Hin.
    discriminate Hin.
Qed.

(** C10, as the code has it.  For [n >= 1] the step is total, whatever
    the count: it increments the count, a 64-bit [int], and then either
    returns the outcome of the downstream step or returns the accumulator
    it was handed, so it returns whenever the downstream step does.  For
    every [n], what it returns is the accumulator it was handed or what
    the downstream step returned: it adds no Reduced value of its own.
    Over at most [2^63 - 1] inputs the sink receives exactly the inputs at
    the positions divisible by [n], and the fold is never cut short.  For
    [n = 0] the very first step panics on the division. *)
Theorem TakeNth_step_total (n : Z) (rf : ReducerFn) (h0 : heap) :
  exists r h1,
    TakeNth n rf h0 = Ok r h1 /\
    cells h1 !! fresh h0 = Some (VInt 0) /\
    (1 <= n ->
     forall c result input h,
       cells h !! fresh h0 = Some (VInt c) ->
       let h' := Heap (<[fresh h0 := VInt (int_add c 1)]> (cells h))
                      (fresh h) in
       Step r result input h
       = (if Z.rem (int_add c 1) n =? 0 then Step rf result input h'
          else Ok result h') /\
       ((exists v h2, Step rf result input h' = Ok v h2) ->
        exists v h2, Step r result input h = Ok v h2)) /\
    (forall result input h v h2,
       Step r result input h = Ok v h2 ->
       (v = result \/ exists h', Step rf result input h' = Ok v h2) /\
       (IsReduced result = false ->
        (forall h' v' h2',
            Step rf result input h' = Ok v' h2' -> IsReduced v' = false) ->
        IsReduced v = false)) /\
    (1 <= n ->
     forall xs,
       Z.of_nat (length xs) <= int_max ->
       exists r' h',
         TakeNth n appending empty_heap = Ok r' h' /\
         value_of (feed (Step r') (VSlice []) xs h')
         = Some (VSlice (every_nth n 1 xs))) /\
    (n = 0 ->
     forall result input,
       Step r result input h1
       = Panic "runtime error: integer divide by zero").
Proof.
  destruct (TakeNth_apply n rf h0) as (r & Happ & _ & _ & Hstep).
  exists r. eexists. split; [exact Happ|].
  split; [cbn; apply lookup_insert_eq|].
  assert (Hret : forall result input h v h2,
             Step r result input h = Ok v h2 ->
             v = result \/ exists h', Step rf result input h' = Ok v h2).
  { intros result input h v h2. rewrite Hstep. go_unfold.
    destruct (cells h !! fresh h0) as [[| | c | | | |]|]; try discriminate.
    cbn. unfold int_rem. destruct (n =? 0); [discriminate|].
    go_unfold. destruct (Z.rem (int_add c 1) n =? 0).
    - intros E. right. eexists. exact E.
    - intros E. injection E as <- _. now left. }
  split; [|split; [|split]].
  - intros Hn c result input h Hcount h'.
    assert (Heq : Step r result input h
                  = (if Z.rem (int_add c 1) n =? 0
                     then Step rf result input h' else Ok result h')).
    { rewrite Hstep. go_unfold. rewrite Hcount. cbn.
      unfold int_rem. replace (n =? 0) with false by lia.
      go_unfold. fold h'.
      destruct (Z.rem (int_add c 1) n =? 0); reflexivity. }
    split; [exact Heq|]. intros (v & h2 & Hdown). rewrite Heq.
    destruct (Z.rem (int_add c 1) n =? 0).
    + exists v, h2. exact Hdown.
    + exists result, h'. reflexivity.
  - intros result input h v h2 E. split; [exact (Hret _ _ _ _ _ E)|].
    intros Hres Hdown.
    destruct (Hret _ _ _ _ _ E) as [->|(h' & E')]; [exact Hres|].
    exact (Hdown _ _ _ E').
  - intros Hn xs Hlen.
    destruct (TakeNth_apply n appending empty_heap)
      as (r' & Happ' & _ & _ & Hstep').
    exists r'. eexists. split; [exact Happ'|].
    destruct (feed_TakeNth_appending n (fresh empty_heap) (Step r') Hn Hstep'
                xs 0 []
                (Heap (<[fresh empty_heap := VInt 0]> (cells empty_heap))
                      (S (fresh empty_heap))))
      as (h' & Hfeed).
    { lia. }
    { lia. }
    { apply lookup_insert_eq. }
    rewrite Hfeed. reflexivity.
  - intros -> result input.
    rewrite Hstep. go_unfold. rewrite lookup_insert_eq. reflexivity.
Qed.

Lemma TakeNth_step_total_witness :
  1 <= 3 /\
  cells (Heap {[ 0%nat := VInt 2 ]} 1%nat) !! fresh empty_heap
  = Some (VInt 2) /\
  Z.of_nat (length (ints [1; 2; 3; 4; 5; 6; 7])) <= int_max /\
  IsReduced (VSlice []) = false /\
  (exists r h1,
     TakeNth 3 appending empty_heap = Ok r h1 /\
     Step r (VSlice []) (VStr "c") (Heap {[ 0%nat := VInt 2 ]} 1%nat)
     = Ok (VSlice [VStr "c"]) (Heap {[ 0%nat := VInt 3 ]} 1%nat) /\
     IsReduced (VSlice [VStr "c"]) = false) /\
  (exists r' h',
     TakeNth 3 appending empty_heap = Ok r' h' /\
     value_of (feed (Step r') (VSlice []) (ints [1; 2; 3; 4; 5; 6; 7]) h')
     = Some (VSlice (ints [3; 6]))).
Proof.
  assert (Hlen : Z.of_nat (length (ints [1; 2; 3; 4; 5; 6; 7])) <= int_max)
    by (unfold int_max; cbn; lia).
  assert (Hcell : cells (Heap {[ 0%nat := VInt 2 ]} 1%nat) !! fresh empty_heap
                  = Some (VInt 2)) by reflexivity.
  split; [lia|]. split; [exact Hcell|]. split; [exact Hlen|].
  split; [reflexivity|].
  destruct (TakeNth_step_total 3 appending empty_heap)
    as (r & h1 & Happ & _ & Hstep & Hred & Hfeed & _).
  split.
  - exists r, h1. split; [exact Happ|].
    destruct (Hstep ltac:(lia) 2 (VSlice []) (VStr "c")
                (Heap {[ 0%nat := VInt 2 ]} 1%nat) Hcell) as [Heq _].
    assert (E : Step r (VSlice []) (VStr "c")
                  (Heap {[ 0%nat := VInt 2 ]} 1%nat)
                = Ok (VSlice [VStr "c"]) (Heap {[ 0%nat := VInt 3 ]} 1%nat)).
    { rewrite Heq. vm_compute. reflexivity. }
    split; [exact E|].
    apply (proj2 (Hred _ _ _ _ _ E)); [reflexivity|].
    intros h' v' h2' E'. vm_compute in E'. injection E' as <- _.
    reflexivity.
  - exact (Hfeed ltac:(lia) (ints [1; 2; 3; 4; 5; 6; 7]) Hlen).
Defined.

(** C10 as stated does not hold past the greatest int: the count is a
    64-bit [int] and wraps.  [TakeNth(3)] over [2^63] zeros and then a
    one: the one is the input at position [2^63 + 1], which 3 divides, but
    the count is then [-2^63 + 1], which 3 does not divide, and the sink
    does not receive the one. *)
Lemma TakeNth_count_wraps :
  Z.of_nat (length long_run) = 2 ^ 63 + 1 /\
  (2 ^ 63 + 1) mod 3 = 0 /\
  In (VInt 1) (every_nth 3 1 long_run) /\
  exists r h1 out h2,
    TakeNth 3 appending empty_heap = Ok r h1 /\
    feed (Step r) (VSlice []) long_run h1 = Ok (VSlice out) h2 /\
    ~ In (VInt 1) out.
Proof.
  destruct (TakeNth_apply 3 appending empty_heap) as (r & Happ & _).
  assert (HN : Z.of_nat (Z.to_nat (2 ^ 63)) = 2 ^ 63)
    by (apply Z2Nat.id; apply Z.pow_nonneg; lia).
  destruct (TakeNth_long_run (Z.to_nat (2 ^ 63)) r _ HN Happ)
    as (Hlen & Hin & out & h2 & Hfeed & Hout).
  split; [exact Hlen|]. split; [reflexivity|]. split; [exact Hin|].
  exists r. eexists. exists out, h2. split; [exact Happ|].
  split; [exact Hfeed|exact Hout].
Qed.

(** ** Worked examples *)

(** The heaps used in the instances above are the ones the pipelines
    reach. *)
Example buffered_1_1_reached :
  (r <- PartitionBy isOdd appending ;;
   feed (Step r) (VSlice []) [VInt 1; VInt 1]) empty_heap
  = Ok (VSlice []) buffered_1_1.
Proof. vm_compute. reflexivity. Qed.

Example Interpose_started_after_first :
  (r <- Interpose (VStr "/") appending ;;
   Step r (VSlice []) (VStr "a")) empty_heap
  = Ok (VSlice [VStr "a"]) (Heap {[ 0%nat := VBool true ]} 1%nat).
Proof. vm_compute. reflexivity. Qed.

Example TakeNth_count_after_two :
  (r <- TakeNth 3 appending ;;
   feed (Step r) (VSlice []) [VStr "a"; VStr "b"]) empty_heap
  = Ok (VSlice []) (Heap {[ 0%nat := VInt 2 ]} 1%nat).
Proof. vm_compute. reflexivity. Qed.

Example Take_5_of_20 :
  value_of (transduce (Take 5) appending (VSlice [])
              (ints [1;2;3;4;5;6;7;8;9;10;11;12;13;14;15;16;17;18;19;20])
              empty_heap)
  = Some (VSlice (ints [1;2;3;4;5])).
Proof. vm_compute. reflexivity. Qed.

Example Take_0_forwards_nothing :
  value_of ((r <- Take 0 appending ;;
             Step r (VSlice []) (VInt 1)) empty_heap)
  = Some (VReduced 1%nat (VSlice [])).
Proof. vm_compute. reflexivity. Qed.

Example Dedupe_adjacent :
  value_of (transduce Dedupe appending (VSlice [])
              (ints [1;1;2;2;2;3;1]) empty_heap)
  = Some (VSlice (ints [1;2;3;1])).
Proof. vm_compute. reflexivity. Qed.

Example PartitionAll_3_of_7 :
  value_of (transduce (PartitionAll 3) appending (VSlice [])
              (ints [1;2;3;4;5;6;7]) empty_heap)
  = Some (VSlice [VSlice (ints [1;2;3]); VSlice (ints [4;5;6]);
                  VSlice (ints [7])]).
Proof. vm_compute. reflexivity. Qed.

Example PartitionBy_isOdd :
  value_of (transduce (PartitionBy isOdd) appending (VSlice [])
              (ints [1;1;2;2;3;5;6]) empty_heap)
  = Some (VSlice [VSlice (ints [1;1]); VSlice (ints [2;2]);
                  VSlice (ints [3;5]); VSlice (ints [6])]).
Proof. vm_compute. reflexivity. Qed.

Example Drop_3_then_Take_2 :
  value_of (transduce (Compose [Drop 3; Take 2]) appending (VSlice [])
              (ints [1;2;3;4;5;6;7;8;9;10]) empty_heap)
  = Some (VSlice (ints [4;5])).
Proof. vm_compute. reflexivity. Qed.

Example TakeWhile_below_5 :
  value_of (transduce
              (TakeWhile (fun v => match v with
                                   | VInt z => ret (z <? 5)
                                   | _ => panic "interface conversion"
                                   end))
              appending (VSlice []) (ints [1;2;3;6;2;1]) empty_heap)
  = Some (VSlice (ints [1;2;3])).
Proof. vm_compute. reflexivity. Qed.

(** * Laws of the catalog *)

(** ** Composition *)

Lemma apply_nested_app (ts1 ts2 : list Transducer) (s : ReducerFn) (h : heap) :
  apply_nested (ts1 ++ ts2) s h
  = (s' <- apply_nested ts2 s ;; apply_nested ts1 s') h.
Proof.
  revert h. induction ts1 as [|t ts1 IH]; intros h.
  - cbn [app apply_nested]. unfold bind, ret.
    now destruct (apply_nested ts2 s h).
  - cbn [app apply_nested]. unfold bind at 1. rewrite IH.
    unfold bind. now destruct (apply_nested ts2 s h).
Qed.

(** X1. [Compose] is associative and flattens: composing the
    concatenation of two argument lists is composing the two compositions,
    so [Compose(Compose(a,b),c)], [Compose(a,Compose(b,c))] and
    [Compose(a,b,c)] build the same reducer in the same heap; and
    [Compose()] is a unit of the pairwise composition on both sides. *)
Theorem Compose_app :
  (forall ts1 ts2 s h,
      Compose (ts1 ++ ts2) s h
      = Transducer_Compose (Compose ts1) (Compose ts2) s h) /\
  (forall a b c s h,
      Compose [Compose [a; b]; c] s h = Compose [a; b; c] s h /\
      Compose [a; Compose [b; c]] s h = Compose [a; b; c] s h) /\
  (forall t s h,
      Transducer_Compose (Compose []) t s h = t s h /\
      Transducer_Compose t (Compose []) s h = t s h).
Proof.
  assert (Happ : forall ts1 ts2 s h,
             Compose (ts1 ++ ts2) s h
             = Transducer_Compose (Compose ts1) (Compose ts2) s h).
  { intros ts1 ts2 s h. rewrite Compose_apply_nested, apply_nested_app.
    unfold Transducer_Compose, bind. rewrite Compose_apply_nested.
    destruct (apply_nested ts2 s h) as [s' h'|]; [|reflexivity].
    now rewrite Compose_apply_nested. }
  split; [exact Happ|]. split.
  - intros a b c s h. split.
    + change [a; b; c] with ([a; b] ++ [c]). rewrite Happ. reflexivity.
    + change [a; b; c] with ([a] ++ [b; c]). rewrite Happ. reflexivity.
  - intros t s h. split.
    + unfold Transducer_Compose, Compose, bind, ret.
      now destruct (t s h).
    + reflexivity.
Qed.

(** Data flows through the leftmost transducer first. *)

(** X2. In [Compose(Map(f), Map(g))] an input goes through [f], then
    through [g], then to the sink: the step of the composite over [rf] is
    [rf.Step(result, g(f(input)))], and [Init] and [Result] are the
    sink's. *)
Theorem Map_Map_step :
  forall (f g : mapper) (rf : ReducerFn) (h0 : heap),
  exists r,
    Compose [Map f; Map g] rf h0 = Ok r h0 /\
    Init r = Init rf /\
    (forall acc h, Result r acc h = Result rf acc h) /\
    forall result input h,
      Step r result input h
      = (x <- f input ;; y <- g x ;; Step rf result y) h.
Proof.
  intros f g rf h0. eexists. split; [reflexivity|]. repeat split.
Qed.

(** ** Stateless transducers, over any downstream reducer *)

(** X3. Feeding inputs to [Map(f)(rf)] is feeding their images under [f]
    to [rf], for a mapper without effects. *)
Theorem Map_feed (f : mapper) (g : value -> value) (rf : ReducerFn)
    (h0 : heap) (Hpure : pure_fn f g) :
  exists r,
    Map f rf h0 = Ok r h0 /\
    forall xs acc h,
      feed (Step r) acc xs h = feed (Step rf) acc (map g xs) h.
Proof.
  eexists. split; [reflexivity|].
  induction xs as [|x xs IH]; intros acc h; [reflexivity|].
  cbn [feed map]. go_unfold. rewrite Hpure.
  destruct (Step rf acc (g x) h) as [r0 h'|]; [|reflexivity].
  destruct (IsReduced r0); [reflexivity|]. apply IH.
Qed.

Lemma Map_feed_witness :
  pure_fn inc (fun v => match v with VInt z => VInt (z + 1) | _ => v end) /\
  exists r,
    Map inc appending empty_heap = Ok r empty_heap /\
    feed (Step r) (VSlice []) (ints [1; 2; 3]) empty_heap
    = Ok (VSlice (ints [2; 3; 4])) empty_heap.
Proof.
  assert (Hpure : pure_fn inc
            (fun v => match v with VInt z => VInt (z + 1) | _ => v end)).
  { intros x h. destruct x; reflexivity. }
  split; [exact Hpure|].
  destruct (Map_feed inc _ appending empty_heap Hpure) as (r & Happ & Hfeed).
  exists r. split; [exact Happ|]. rewrite Hfeed. reflexivity.
Defined.

(** X4. Feeding inputs to [Filter(pred)(rf)] is feeding [rf] the inputs
    that satisfy [pred], in order; the others leave the accumulator as it
    is. *)
Theorem Filter_feed (p : predicate) (q : value -> bool) (rf : ReducerFn)
    (h0 : heap) (acc : value)
    (Hpure : pure_pred p q)
    (Hacc : IsReduced acc = false) :
  exists r,
    Filter p rf h0 = Ok r h0 /\
    forall xs h,
      feed (Step r) acc xs h = feed (Step rf) acc (List.filter q xs) h.
Proof.
  eexists. split; [reflexivity|].
  intros xs. revert acc Hacc.
  induction xs as [|x xs IH]; intros acc Hacc h; [reflexivity|].
  cbn [feed List.filter]. go_unfold. rewrite Hpure.
  destruct (q x).
  - cbn [feed]. go_unfold.
    destruct (Step rf acc x h) as [r0 h'|]; [|reflexivity].
    destruct (IsReduced r0) eqn:E; [reflexivity|]. now apply IH.
  - rewrite Hacc. now apply IH.
Qed.

Lemma Filter_feed_witness :
  pure_pred below_5_pred below_5 /\
  IsReduced (VSlice []) = false /\
  exists r,
    Filter below_5_pred appending empty_heap = Ok r empty_heap /\
    feed (Step r) (VSlice []) (ints [1; 7; 3; 9; 4]) empty_heap
    = Ok (VSlice (ints [1; 3; 4])) empty_heap.
Proof.
  assert (Hpure : pure_pred below_5_pred below_5) by (intros x h; reflexivity).
  split; [exact Hpure|]. split; [reflexivity|].
  destruct (Filter_feed below_5_pred below_5 appending empty_heap (VSlice [])
              Hpure eq_refl) as (r & Happ & Hfeed).
  exists r. split; [exact Happ|]. rewrite Hfeed. reflexivity.
Defined.

(** X5. [Remove(pred)] is the complement of [Filter(pred)]: feeding
    inputs to [Remove(pred)(rf)] is feeding [rf] the inputs that do not
    satisfy [pred]. *)
Theorem Remove_feed (p : predicate) (q : value -> bool) (rf : ReducerFn)
    (h0 : heap) (acc : value)
    (Hpure : pure_pred p q)
    (Hacc : IsReduced acc = false) :
  exists r,
    Remove p rf h0 = Ok r h0 /\
    forall xs h,
      feed (Step r) acc xs h
      = feed (Step rf) acc (List.filter (fun x => negb (q x)) xs) h.
Proof.
  eexists. split; [reflexivity|].
  intros xs. revert acc Hacc.
  induction xs as [|x xs IH]; intros acc Hacc h; [reflexivity|].
  cbn [feed List.filter]. go_unfold. rewrite Hpure.
  destruct (q x); cbn [negb].
  - rewrite Hacc. now apply IH.
  - cbn [feed]. go_unfold.
    destruct (Step rf acc x h) as [r0 h'|]; [|reflexivity].
    destruct (IsReduced r0) eqn:E; [reflexivity|]. now apply IH.
Qed.

Lemma Remove_feed_witness :
  pure_pred below_5_pred below_5 /\
  IsReduced (VSlice []) = false /\
  exists r,
    Remove below_5_pred appending empty_heap = Ok r empty_heap /\
    feed (Step r) (VSlice []) (ints [1; 7; 3; 9; 4]) empty_heap
    = Ok (VSlice (ints [7; 9])) empty_heap.
Proof.
  assert (Hpure : pure_pred below_5_pred below_5) by (intros x h; reflexivity).
  split; [exact Hpure|]. split; [reflexivity|].
  destruct (Remove_feed below_5_pred below_5 appending empty_heap (VSlice [])
              Hpure eq_refl) as (r & Happ & Hfeed).
  exists r. split; [exact Happ|]. rewrite Hfeed. reflexivity.
Defined.

(** X6. Feeding inputs to [Keep(f)(rf)] is feeding [rf] the non-nil
    images of the inputs under [f]; an input whose image is nil leaves the
    accumulator as it is. *)
Theorem Keep_feed (f : mapper) (g : value -> value) (rf : ReducerFn)
    (h0 : heap) (acc : value)
    (Hpure : pure_fn f g)
    (Hacc : IsReduced acc = false) :
  exists r,
    Keep f rf h0 = Ok r h0 /\
    forall xs h,
      feed (Step r) acc xs h
      = feed (Step rf) acc (List.filter not_nil (map g xs)) h.
Proof.
  eexists. split; [reflexivity|].
  intros xs. revert acc Hacc.
  induction xs as [|x xs IH]; intros acc Hacc h; [reflexivity|].
  cbn [feed List.filter map]. go_unfold. rewrite Hpure.
  destruct (not_nil (g x)).
  - cbn [feed]. go_unfold.
    destruct (Step rf acc (g x) h) as [r0 h'|]; [|reflexivity].
    destruct (IsReduced r0) eqn:E; [reflexivity|]. now apply IH.
  - rewrite Hacc. now apply IH.
Qed.

Lemma Keep_feed_witness :
  pure_fn odd_square_fn odd_square /\
  IsReduced (VSlice []) = false /\
  exists r,
    Keep odd_square_fn appending empty_heap = Ok r empty_heap /\
    feed (Step r) (VSlice []) (ints [1; 2; 3; 4; 5]) empty_heap
    = Ok (VSlice (ints [1; 9; 25])) empty_heap.
Proof.
  assert (Hpure : pure_fn odd_square_fn odd_square) by (intros x h; reflexivity).
  split; [exact Hpure|]. split; [reflexivity|].
  destruct (Keep_feed odd_square_fn odd_square appending empty_heap (VSlice [])
              Hpure eq_refl) as (r & Happ & Hfeed).
  exists r. split; [exact Happ|]. rewrite Hfeed. reflexivity.
Defined.

(** X7. [TakeWhile(pred)(rf)] feeds [rf] the longest prefix of the inputs
    that satisfies [pred] and nothing after it.  The outcome is the one
    [rf] has on that prefix, up to the termination marker: it is Reduced
    exactly when [rf] stopped or some input failed [pred]; the failing
    input is not forwarded. *)
Theorem TakeWhile_feed (p : predicate) (q : value -> bool) (rf : ReducerFn)
    (h0 : heap) (Hpure : pure_pred p q) :
  exists r,
    TakeWhile p rf h0 = Ok r h0 /\
    forall xs acc h,
      match feed (Step rf) acc (take_while q xs) h with
      | Ok v h' =>
          exists v' h'',
            feed (Step r) acc xs h = Ok v' h'' /\
            Unreduced v' = Unreduced v /\
            IsReduced v'
            = IsReduced v
              || (length (take_while q xs) <? length xs)%nat
      | Panic msg => feed (Step r) acc xs h = Panic msg
      end.
Proof.
  eexists. split; [reflexivity|].
  induction xs as [|x xs IH]; intros acc h.
  - cbn. do 2 eexists. repeat split. now rewrite orb_false_r.
  - cbn [feed take_while]. go_unfold. rewrite Hpure.
    destruct (q x).
    + cbn [feed length]. go_unfold.
      destruct (Step rf acc x h) as [r0 h'|]; [|reflexivity].
      destruct (IsReduced r0) eqn:E.
      * do 2 eexists. split; [reflexivity|]. split; [reflexivity|].
        now rewrite E.
      * apply IH.
    + cbn [feed length]. go_unfold. unfold EnsureReduced.
      destruct (IsReduced acc) eqn:E.
      * do 2 eexists. cbn. rewrite E.
        split; [reflexivity|]. split; [reflexivity|exact E].
      * exists (VReduced (fresh h) acc), (Heap (cells h) (S (fresh h))).
        cbn. rewrite ?E. split; [reflexivity|].
        split; [|reflexivity]. unfold Unreduced. cbn. now rewrite E.
Qed.

Lemma TakeWhile_feed_witness :
  pure_pred below_5_pred below_5 /\
  exists r,
    TakeWhile below_5_pred appending empty_heap = Ok r empty_heap /\
    exists v' h'',
      feed (Step r) (VSlice []) (ints [1; 2; 3; 6; 2; 1]) empty_heap
      = Ok v' h'' /\
      Unreduced v' = VSlice (ints [1; 2; 3]) /\
      IsReduced v' = true.
Proof.
  assert (Hpure : pure_pred below_5_pred below_5) by (intros x h; reflexivity).
  split; [exact Hpure|].
  destruct (TakeWhile_feed below_5_pred below_5 appending empty_heap Hpure)
    as (r & Happ & Hfeed).
  exists r. split; [exact Happ|].
  exact (Hfeed (ints [1; 2; 3; 6; 2; 1]) (VSlice []) empty_heap).
Defined.

(** X8. [Replace] substitutes the inputs that are keys of the table and
    forwards every other input as it is, by the kind of table.  With a
    [map[interface{}]interface{}], a hashable input [x] reaches the sink
    as the value stored under [x], or as [x] itself when there is none; an
    unhashable input (a slice) is a run-time panic.  With a [Find] object,
    the found value is forwarded when [Find] reports success and the input
    otherwise.  With a map of any other type, read through reflection,
    the same substitution is made for the inputs assignable to the key
    type of the map, while a nil input and an input of any other type are
    run-time panics.  With a table that is no map, every input is a
    run-time panic. *)
Theorem Replace_step :
  forall (rf : ReducerFn) (h0 : heap),
  (forall entries,
   exists r,
     Replace (SMap entries) rf h0 = Ok r h0 /\
     forall result x h,
       Step r result x h
       = if hashable x then Step rf result (replaced entries x) h
         else Panic "runtime error: hash of unhashable type []interface {}") /\
  (forall Find,
   exists r,
     Replace (SFind Find) rf h0 = Ok r h0 /\
     forall result x h,
       Step r result x h
       = match Find x h with
         | Ok (out, ok) h' => Step rf result (if ok then out else x) h'
         | Panic msg => Panic msg
         end) /\
  (forall K entries,
   exists r,
     Replace (SOther (RMap K entries)) rf h0 = Ok r h0 /\
     forall result x h,
       Step r result x h
       = match type_of x with
         | None =>
             Panic "runtime error: invalid memory address or nil pointer dereference"
         | Some t =>
             if assignable t K then
               if hashable x then Step rf result (replaced entries x) h
               else Panic "runtime error: hash of unhashable type []interface {}"
             else
               Panic ("reflect.Value.MapIndex: value of type " ++ type_name t
                      ++ " is not assignable to type " ++ key_name K)
         end) /\
  (forall v,
   exists r,
     Replace (SOther (RValue v)) rf h0 = Ok r h0 /\
     forall result x h,
       Step r result x h
       = Panic ("reflect: call of reflect.Value.MapIndex on "
                ++ match type_of v with
                   | None => "zero"
                   | Some t => kind_name t
                   end ++ " Value")).
Proof.
  intros rf h0. split; [|split; [|split]].
  - intros entries. eexists. split; [reflexivity|].
    intros result x h. unfold Replace, Map. go_unfold.
    unfold map_index, replaced. destruct (hashable x); [|reflexivity].
    destruct (assoc x entries); reflexivity.
  - intros Find. eexists. split; [reflexivity|].
    intros result x h. unfold Replace, Map. go_unfold.
    destruct (Find x h) as [[out ok] h'|]; [|reflexivity].
    destruct ok; reflexivity.
  - intros K entries. eexists. split; [reflexivity|].
    intros result x h. unfold Replace, Map, reflect_MapIndex. go_unfold.
    destruct (type_of x) as [t|]; [|reflexivity].
    destruct (assignable t K); [|reflexivity].
    unfold map_index, replaced. destruct (hashable x); [|reflexivity].
    destruct (assoc x entries); reflexivity.
  - intros v. eexists. split; [reflexivity|].
    intros result x h. unfold Replace, Map, reflect_MapIndex. go_unfold.
    destruct (type_of v); reflexivity.
Qed.

(** [ExampleReplace]: the table is a [map[int]string], so the integers
    that are keys are replaced by their names, the other integers pass,
    and an input that is no integer is a run-time panic. *)
Lemma Replace_number_names :
  exists r,
    Replace number_names appending empty_heap = Ok r empty_heap /\
    value_of (feed (Step r) (VSlice []) (ints [1; 2; 6; 7; 18]) empty_heap)
    = Some (VSlice [VInt 1; VStr "two"; VStr "six"; VInt 7;
                    VStr "eighteen"]) /\
    feed (Step r) (VSlice []) [VInt 2; VStr "six"] empty_heap
    = Panic "reflect.Value.MapIndex: value of type string is not assignable to type int" /\
    feed (Step r) (VSlice []) [VNil] empty_heap
    = Panic "runtime error: invalid memory address or nil pointer dereference".
Proof.
  eexists. split; [reflexivity|].
  split; [vm_compute; reflexivity|].
  split; vm_compute; reflexivity.
Qed.

(** ** Frames *)

Lemma set_cell_set_cell (l : loc) (a b : value) (h : heap) :
  set_cell l a (set_cell l b h) = set_cell l a h.
Proof. unfold set_cell. cbn. now rewrite insert_insert_eq. Qed.

Lemma set_cell_comm (l l' : loc) (a b : value) (h : heap) :
  l <> l' ->
  set_cell l a (set_cell l' b h) = set_cell l' b (set_cell l a h).
Proof.
  intros Hne. unfold set_cell. cbn. f_equal.
  apply insert_insert_ne. congruence.
Qed.

Lemma lookup_set_cell (l : loc) (w : value) (h : heap) :
  cells (set_cell l w h) !! l = Some w.
Proof. unfold set_cell. cbn. apply lookup_insert_eq. Qed.

Lemma ignores_appending (l : loc) : ignores l (Step appending).
Proof. intros acc x w h. cbn. destruct acc; reflexivity. Qed.

Lemma feed_ignores (l : loc) (step : reducingFn) :
  ignores l step ->
  forall xs acc w h,
    feed step acc xs (set_cell l w h)
    = match feed step acc xs h with
      | Ok v h' => Ok v (set_cell l w h')
      | Panic msg => Panic msg
      end.
Proof.
  intros Hig. induction xs as [|x xs IH]; intros acc w h; [reflexivity|].
  cbn [feed]. unfold bind. rewrite Hig.
  destruct (step acc x h) as [r0 h'|]; [|reflexivity].
  destruct (IsReduced r0); [reflexivity|]. apply IH.
Qed.

(** Comparisons in boolean form, settled by case analysis and [lia]. *)
Ltac bool_lia :=
  repeat match goal with
    | |- context [(?a <=? ?b)%Z] => destruct (Z.leb_spec a b)
    | |- context [(?a <? ?b)%Z] => destruct (Z.ltb_spec a b)
    | |- context [(?a <? ?b)%nat] => destruct (Nat.ltb_spec a b)
    | |- context [(?a <=? ?b)%nat] => destruct (Nat.leb_spec a b)
    end;
  cbn [andb orb negb length] in *; try reflexivity; try lia.

(** ** Take, over any downstream reducer *)

Lemma feed_Take_general (l : loc) (rf r : ReducerFn) :
  (forall result input h,
      Step r result input h
      = (current <- load_int l ;;
         let next := int_sub current 1 in
         store l (VInt next) ;;;
         result <- (if 0 <? current then Step rf result input
                    else ret result) ;;
         if 0 <? next then ret result
         else EnsureReduced result) h) ->
  ignores l (Step rf) ->
  forall xs c acc h,
    int_min < c <= int_max ->
    same_up_to_Reduced
      (feed (Step rf) acc (firstn (Z.to_nat c) xs) h)
      (feed (Step r) acc xs (set_cell l (VInt c) h))
      ((c <=? Z.of_nat (length xs)) && (0 <? length xs)%nat).
Proof.
  intros Hstep Hig. induction xs as [|x xs IH]; intros c acc h Hc.
  - rewrite firstn_nil. cbn. do 2 eexists. split; [reflexivity|].
    split; [reflexivity|]. now rewrite andb_false_r, orb_false_r.
  - cbn [feed]. unfold bind at 1. rewrite Hstep.
    go_unfold. rewrite lookup_set_cell. cbn.
    unfold int_sub. rewrite wrap_id by int_lia.
    fold (set_cell l (VInt (c - 1)) (set_cell l (VInt c) h)).
    rewrite set_cell_set_cell.
    destruct (0 <? c) eqn:Epos.
    + replace (Z.to_nat c) with (S (Z.to_nat (c - 1))) by lia.
      cbn [firstn feed]. unfold bind at 1.
      rewrite Hig.
      destruct (Step rf acc x h) as [r0 h1|]; [|reflexivity].
      destruct (0 <? c - 1) eqn:Enext.
      * cbn. destruct (IsReduced r0) eqn:Er.
        -- do 2 eexists. split; [reflexivity|]. split; [reflexivity|].
           now rewrite Er.
        -- specialize (IH (c - 1) r0 h1 ltac:(int_lia)).
           unfold same_up_to_Reduced in *.
           destruct (feed (Step rf) r0 (firstn (Z.to_nat (c - 1)) xs) h1)
             as [v h'|]; [|exact IH].
           destruct IH as (v' & h'' & Hfeed & Hv & Hred).
           exists v', h''. split; [exact Hfeed|]. split; [exact Hv|].
           rewrite Hred. f_equal. cbn [length]. bool_lia.
      * replace (Z.to_nat (c - 1)) with 0%nat by lia. cbn [firstn feed].
        unfold EnsureReduced, ret.
        destruct (IsReduced r0) eqn:Er.
        -- cbn. rewrite Er. do 2 eexists. split; [reflexivity|].
           split; [reflexivity|]. now rewrite Er.
        -- cbn. do 2 eexists. split; [reflexivity|]. rewrite Er.
           split; [unfold Unreduced; cbn; now rewrite Er|].
           cbn [length IsReduced]. bool_lia.
    + replace (Z.to_nat c) with 0%nat by lia. cbn [firstn feed].
      replace (0 <? c - 1) with false by lia.
      unfold EnsureReduced, ret.
      destruct (IsReduced acc) eqn:Ea.
      * cbn. rewrite Ea. do 2 eexists. split; [reflexivity|].
        split; [reflexivity|exact Ea].
      * cbn. do 2 eexists. split; [reflexivity|].
        split; [unfold Unreduced; cbn; now rewrite Ea|].
        rewrite Ea. cbn [length IsReduced]. bool_lia.
Qed.

(** X9. Driving [Take(n)(rf)] is driving [rf] over the first [n] inputs
    (none for [n <= 0]), for every [n] but the least int and every
    downstream reducer: the same accumulator up to the termination marker
    and the same panic.  The outcome is Reduced exactly when [rf] stopped
    or the inputs were at least [n] (and at least one): termination fires
    on the step that takes the [n]-th input. *)
Theorem Take_feed (n : Z) (rf : ReducerFn) (h0 : heap)
    (Hn : int_min < n <= int_max)
    (Hig : ignores (fresh h0) (Step rf)) :
  exists r h1,
    Take n rf h0 = Ok r h1 /\
    forall xs acc,
      same_up_to_Reduced
        (feed (Step rf) acc (firstn (Z.to_nat n) xs) h1)
        (feed (Step r) acc xs h1)
        ((n <=? Z.of_nat (length xs)) && (0 <? length xs)%nat).
Proof.
  destruct (Take_apply n rf h0) as (r & Happ & _ & _ & Hstep).
  exists r. eexists. split; [exact Happ|].
  intros xs acc.
  change (Heap (<[fresh h0 := VInt n]> (cells h0)) (S (fresh h0)))
    with (set_cell (fresh h0) (VInt n) (Heap (cells h0) (S (fresh h0)))).
  set (hB := Heap (cells h0) (S (fresh h0))).
  pose proof (feed_Take_general (fresh h0) rf r Hstep Hig xs n acc hB Hn) as H.
  rewrite (feed_ignores _ _ Hig).
  unfold same_up_to_Reduced in *.
  destruct (feed (Step rf) acc (firstn (Z.to_nat n) xs) hB); exact H.
Qed.

Lemma Take_feed_witness :
  int_min < 2 <= int_max /\
  ignores (fresh empty_heap) (Step appending) /\
  exists r h1,
    Take 2 appending empty_heap = Ok r h1 /\
    exists v' h'',
      feed (Step r) (VSlice []) (ints [1; 2; 3]) h1 = Ok v' h'' /\
      Unreduced v' = VSlice (ints [1; 2]) /\
      IsReduced v' = true.
Proof.
  assert (Hn : int_min < 2 <= int_max) by (unfold int_min, int_max; lia).
  split; [exact Hn|]. split; [apply ignores_appending|].
  destruct (Take_feed 2 appending empty_heap Hn (ignores_appending _))
    as (r & h1 & Happ & Hfeed).
  exists r, h1. split; [exact Happ|].
  injection Happ as _ <-.
  exact (Hfeed (ints [1; 2; 3]) (VSlice [])).
Defined.

(** ** Drop and DropWhile, over any downstream reducer *)

Lemma Drop_apply (n : Z) (rf : ReducerFn) (h0 : heap) :
  exists r,
    Drop n rf h0
    = Ok r (set_cell (fresh h0) (VInt 0) (Heap (cells h0) (S (fresh h0)))) /\
    Init r = Init rf /\ Result r = Result rf /\
    forall result input h,
      Step r result input h
      = (d <- load_int (fresh h0) ;;
         if d <? n then
           store (fresh h0) (VInt (int_add d 1)) ;;;
           ret result
         else Step rf result input) h.
Proof. eexists. split; [reflexivity|]. repeat split. Qed.

Lemma feed_Drop_general (l : loc) (n : Z) (rf r : ReducerFn) :
  (forall result input h,
      Step r result input h
      = (d <- load_int l ;;
         if d <? n then
           store l (VInt (int_add d 1)) ;;;
           ret result
         else Step rf result input) h) ->
  ignores l (Step rf) ->
  n <= int_max ->
  forall xs d acc h,
    0 <= d ->
    IsReduced acc = false ->
    same_but_cell l
      (feed (Step rf) acc (skipn (Z.to_nat (n - d)) xs) h)
      (feed (Step r) acc xs (set_cell l (VInt d) h)).
Proof.
  intros Hstep Hig Hn. induction xs as [|x xs IH]; intros d acc h Hd Hacc.
  - rewrite skipn_nil. cbn. eexists. reflexivity.
  - cbn [feed]. unfold bind at 1. rewrite Hstep.
    go_unfold. rewrite lookup_set_cell. cbn.
    destruct (d <? n) eqn:E.
    + replace (Z.to_nat (n - d)) with (S (Z.to_nat (n - (d + 1)))) by lia.
      cbn [skipn]. rewrite Hacc.
      unfold int_add. rewrite wrap_id by int_lia.
      fold (set_cell l (VInt (d + 1)) (set_cell l (VInt d) h)).
      rewrite set_cell_set_cell. apply IH; [lia|exact Hacc].
    + replace (Z.to_nat (n - d)) with 0%nat by lia.
      cbn [skipn feed]. unfold bind at 1. rewrite Hig.
      destruct (Step rf acc x h) as [r0 h1|]; [|reflexivity].
      destruct (IsReduced r0) eqn:Er.
      * eexists. reflexivity.
      * specialize (IH d r0 h1 Hd Er).
        replace (Z.to_nat (n - d)) with 0%nat in IH by lia.
        exact IH.
Qed.

(** X10. Driving [Drop(n)(rf)] is driving [rf] over the inputs after the
    first [n] (all of them for [n <= 0]), for every downstream reducer:
    the same accumulator, the same panic, and the same heap but for the
    counter. *)
Theorem Drop_feed (n : Z) (rf : ReducerFn) (h0 : heap) (acc : value)
    (Hn : n <= int_max)
    (Hacc : IsReduced acc = false)
    (Hig : ignores (fresh h0) (Step rf)) :
  exists r h1,
    Drop n rf h0 = Ok r h1 /\
    forall xs,
      same_but_cell (fresh h0)
        (feed (Step rf) acc (skipn (Z.to_nat n) xs) h1)
        (feed (Step r) acc xs h1).
Proof.
  destruct (Drop_apply n rf h0) as (r & Happ & _ & _ & Hstep).
  exists r. eexists. split; [exact Happ|].
  intros xs. set (hB := Heap (cells h0) (S (fresh h0))).
  pose proof (feed_Drop_general (fresh h0) n rf r Hstep Hig Hn xs 0 acc hB
                ltac:(lia) Hacc) as H.
  rewrite Z.sub_0_r in H.
  rewrite (feed_ignores _ _ Hig).
  unfold same_but_cell in *.
  destruct (feed (Step rf) acc (skipn (Z.to_nat n) xs) hB) as [v h'|];
    [|exact H].
  destruct H as (w & H). exists w. rewrite H.
  now rewrite set_cell_set_cell.
Qed.

Lemma Drop_feed_witness :
  3 <= int_max /\
  IsReduced (VSlice []) = false /\
  ignores (fresh empty_heap) (Step appending) /\
  exists r h1,
    Drop 3 appending empty_heap = Ok r h1 /\
    exists w,
      feed (Step r) (VSlice []) (ints [1; 2; 3; 4; 5]) h1
      = Ok (VSlice (ints [4; 5])) (set_cell 0%nat w h1).
Proof.
  assert (Hn : 3 <= int_max) by (unfold int_max; lia).
  split; [exact Hn|]. split; [reflexivity|].
  split; [apply ignores_appending|].
  destruct (Drop_feed 3 appending empty_heap (VSlice []) Hn eq_refl
              (ignores_appending _)) as (r & h1 & Happ & Hfeed).
  exists r, h1. split; [exact Happ|].
  injection Happ as _ <-.
  exact (Hfeed (ints [1; 2; 3; 4; 5])).
Defined.

Lemma DropWhile_apply (p : predicate) (rf : ReducerFn) (h0 : heap) :
  exists r,
    DropWhile p rf h0
    = Ok r (set_cell (fresh h0) (VBool true)
              (Heap (cells h0) (S (fresh h0)))) /\
    Init r = Init rf /\ Result r = Result rf /\
    forall result input h,
      Step r result input h
      = (d <- load_bool (fresh h0) ;;
         skip <- (if d then p input else ret false) ;;
         if skip then ret result
         else
           store (fresh h0) (VBool false) ;;;
           Step rf result input) h.
Proof. eexists. split; [reflexivity|]. repeat split. Qed.

Lemma feed_DropWhile_general (l : loc) (p : predicate) (q : value -> bool)
    (rf r : ReducerFn) :
  (forall result input h,
      Step r result input h
      = (d <- load_bool l ;;
         skip <- (if d then p input else ret false) ;;
         if skip then ret result
         else
           store l (VBool false) ;;;
           Step rf result input) h) ->
  pure_pred p q ->
  ignores l (Step rf) ->
  forall xs (b : bool) acc h,
    IsReduced acc = false ->
    same_but_cell l
      (feed (Step rf) acc (if b then drop_while q xs else xs) h)
      (feed (Step r) acc xs (set_cell l (VBool b) h)).
Proof.
  intros Hstep Hpure Hig.
  induction xs as [|x xs IH]; intros b acc h Hacc.
  - destruct b; cbn; eexists; reflexivity.
  - cbn [feed]. unfold bind at 1. rewrite Hstep.
    go_unfold. rewrite lookup_set_cell. cbn.
    assert (Hfwd :
      same_but_cell l
        (feed (Step rf) acc (x :: xs) h)
        (match Step rf acc x (set_cell l (VBool false) h) with
         | Ok a h' =>
             (if IsReduced a then fun h1 => Ok a h1
              else feed (Step r) a xs) h'
         | Panic msg => Panic msg
         end)).
    { cbn [feed]. unfold bind at 1. rewrite Hig.
      destruct (Step rf acc x h) as [r0 h1|]; [|reflexivity].
      destruct (IsReduced r0) eqn:Er.
      - eexists. reflexivity.
      - exact (IH false r0 h1 Er). }
    destruct b.
    + rewrite Hpure. cbn [drop_while]. destruct (q x).
      * rewrite Hacc. exact (IH true acc h Hacc).
      * fold (set_cell l (VBool false) (set_cell l (VBool true) h)).
        rewrite set_cell_set_cell. exact Hfwd.
    + fold (set_cell l (VBool false) (set_cell l (VBool false) h)).
      rewrite set_cell_set_cell. exact Hfwd.
Qed.

(** X11. Driving [DropWhile(pred)(rf)] is driving [rf] over the inputs
    from the first one that fails [pred] on: once an input has failed,
    every later input is forwarded, whether it satisfies [pred] or not. *)
Theorem DropWhile_feed (p : predicate) (q : value -> bool) (rf : ReducerFn)
    (h0 : heap) (acc : value)
    (Hpure : pure_pred p q)
    (Hacc : IsReduced acc = false)
    (Hig : ignores (fresh h0) (Step rf)) :
  exists r h1,
    DropWhile p rf h0 = Ok r h1 /\
    forall xs,
      same_but_cell (fresh h0)
        (feed (Step rf) acc (drop_while q xs) h1)
        (feed (Step r) acc xs h1).
Proof.
  destruct (DropWhile_apply p rf h0) as (r & Happ & _ & _ & Hstep).
  exists r. eexists. split; [exact Happ|].
  intros xs. set (hB := Heap (cells h0) (S (fresh h0))).
  pose proof (feed_DropWhile_general (fresh h0) p q rf r Hstep Hpure Hig
                xs true acc hB Hacc) as H.
  rewrite (feed_ignores _ _ Hig).
  unfold same_but_cell in *.
  destruct (feed (Step rf) acc (drop_while q xs) hB) as [v h'|]; [|exact H].
  destruct H as (w & H). exists w. rewrite H.
  now rewrite set_cell_set_cell.
Qed.

Lemma DropWhile_feed_witness :
  pure_pred below_5_pred below_5 /\
  IsReduced (VSlice []) = false /\
  ignores (fresh empty_heap) (Step appending) /\
  exists r h1,
    DropWhile below_5_pred appending empty_heap = Ok r h1 /\
    exists w,
      feed (Step r) (VSlice []) (ints [1; 2; 7; 3; 9]) h1
      = Ok (VSlice (ints [7; 3; 9])) (set_cell 0%nat w h1).
Proof.
  assert (Hpure : pure_pred below_5_pred below_5) by (intros x h; reflexivity).
  split; [exact Hpure|]. split; [reflexivity|].
  split; [apply ignores_appending|].
  destruct (DropWhile_feed below_5_pred below_5 appending empty_heap
              (VSlice []) Hpure eq_refl (ignores_appending _))
    as (r & h1 & Happ & Hfeed).
  exists r, h1. split; [exact Happ|].
  injection Happ as _ <-.
  exact (Hfeed (ints [1; 2; 7; 3; 9])).
Defined.

(** ** Dedupe, over any downstream reducer *)

Lemma go_eq_veqb (a b : value) (h : heap) :
  hashable b = true -> go_eq a b h = Ok (veqb a b) h.
Proof. destruct a, b; cbn; intros E; try reflexivity; discriminate. Qed.

Lemma feed_Dedupe_general (l : loc) (rf r : ReducerFn) :
  (forall result input h,
      Step r result input h
      = (p <- load l ;;
         same <- go_eq p input ;;
         if same then ret result
         else
           store l input ;;;
           Step rf result input) h) ->
  ignores l (Step rf) ->
  forall xs p acc h,
    Forall (fun x => hashable x = true) xs ->
    IsReduced acc = false ->
    same_but_cell l
      (feed (Step rf) acc (dedupe_from p xs) h)
      (feed (Step r) acc xs (set_cell l p h)).
Proof.
  intros Hstep Hig.
  induction xs as [|x xs IH]; intros p acc h Hxs Hacc.
  - cbn. eexists. reflexivity.
  - inversion Hxs as [|? ? Hx Hxs']; subst.
    cbn [feed dedupe_from]. unfold bind at 1. rewrite Hstep.
    go_unfold. rewrite lookup_set_cell. rewrite go_eq_veqb by exact Hx.
    destruct (veqb p x).
    + rewrite Hacc. apply IH; assumption.
    + fold (set_cell l x (set_cell l p h)). rewrite set_cell_set_cell.
      cbn [feed]. unfold bind at 1. rewrite Hig.
      destruct (Step rf acc x h) as [r0 h1|]; [|reflexivity].
      destruct (IsReduced r0) eqn:Er.
      * eexists. reflexivity.
      * apply IH; assumption.
Qed.

(** X12. Driving [Dedupe()(rf)] over inputs that can be compared (no
    slices) is driving [rf] over the inputs that differ from their
    predecessor, the nil interface standing before the first input; so a
    run of equal inputs is forwarded once, and a value that comes back
    later is forwarded again. *)
Theorem Dedupe_feed (rf : ReducerFn) (h0 : heap) (acc : value)
    (xs : list value)
    (Hxs : Forall (fun x => hashable x = true) xs)
    (Hacc : IsReduced acc = false)
    (Hig : ignores (fresh h0) (Step rf)) :
  exists r h1,
    Dedupe rf h0 = Ok r h1 /\
    same_but_cell (fresh h0)
      (feed (Step rf) acc (dedupe_from VNil xs) h1)
      (feed (Step r) acc xs h1).
Proof.
  destruct (Dedupe_apply rf h0) as (r & Happ & _ & _ & Hstep).
  exists r. eexists. split; [exact Happ|].
  change (Heap (<[fresh h0 := VNil]> (cells h0)) (S (fresh h0)))
    with (set_cell (fresh h0) VNil (Heap (cells h0) (S (fresh h0)))).
  set (hB := Heap (cells h0) (S (fresh h0))).
  pose proof (feed_Dedupe_general (fresh h0) rf r Hstep Hig
                xs VNil acc hB Hxs Hacc) as H.
  rewrite (feed_ignores _ _ Hig).
  unfold same_but_cell in *.
  destruct (feed (Step rf) acc (dedupe_from VNil xs) hB) as [v h'|];
    [|exact H].
  destruct H as (w & H). exists w. rewrite H.
  now rewrite set_cell_set_cell.
Qed.

Lemma Dedupe_feed_witness :
  Forall (fun x => hashable x = true) (ints [1; 1; 2; 2; 2; 3; 1]) /\
  IsReduced (VSlice []) = false /\
  ignores (fresh empty_heap) (Step appending) /\
  exists r h1,
    Dedupe appending empty_heap = Ok r h1 /\
    exists w,
      feed (Step r) (VSlice []) (ints [1; 1; 2; 2; 2; 3; 1]) h1
      = Ok (VSlice (ints [1; 2; 3; 1])) (set_cell 0%nat w h1).
Proof.
  assert (Hxs : Forall (fun x => hashable x = true)
                  (ints [1; 1; 2; 2; 2; 3; 1]))
    by (repeat constructor).
  split; [exact Hxs|]. split; [reflexivity|].
  split; [apply ignores_appending|].
  destruct (Dedupe_feed appending empty_heap (VSlice []) _ Hxs eq_refl
              (ignores_appending _)) as (r & h1 & Happ & Hfeed).
  exists r, h1. split; [exact Happ|].
  injection Happ as _ <-.
  exact Hfeed.
Defined.

(** X13. Two slices in a row make [Dedupe] panic: the first is stored as
    the last-seen value and forwarded, and unless the downstream step
    stopped or panicked there, comparing the second with it is a run-time
    panic.  So [Dedupe] cannot follow [PartitionAll] or [PartitionBy]:
    [Compose(PartitionAll(2), Dedupe())] panics on its second
    partition. *)
Theorem Dedupe_two_slices_panic :
  (forall (rf : ReducerFn) (h0 : heap) (a b : list value) (acc : value),
   exists r h1,
     Dedupe rf h0 = Ok r h1 /\
     feed (Step r) acc [VSlice a; VSlice b] h1
     = match Step rf acc (VSlice a) (set_cell (fresh h0) (VSlice a) h1) with
       | Ok r0 h' =>
           if IsReduced r0 then Ok r0 h'
           else
             match cells h' !! fresh h0 with
             | Some (VSlice _) =>
                 Panic "runtime error: comparing uncomparable type []interface {}"
             | Some _ =>
                 Step rf r0 (VSlice b) (set_cell (fresh h0) (VSlice b) h')
             | None => Panic "invalid memory address"
             end
       | Panic msg => Panic msg
       end) /\
  transduce (Compose [PartitionAll 2; Dedupe]) appending (VSlice [])
    (ints [1; 2; 3; 4]) empty_heap
  = Panic "runtime error: comparing uncomparable type []interface {}".
Proof.
  split.
  - intros rf h0 a b acc.
    destruct (Dedupe_apply rf h0) as (r & Happ & _ & _ & Hstep).
    exists r. eexists. split; [exact Happ|].
    cbn [feed]. unfold bind at 1. rewrite Hstep.
    go_unfold. rewrite lookup_insert_eq. cbn.
    match goal with
    | |- context [Step rf acc (VSlice a) ?h] =>
        change h with (set_cell (fresh h0) (VSlice a)
                         (Heap (<[fresh h0 := VNil]> (cells h0))
                               (S (fresh h0))))
    end.
    destruct (Step rf acc (VSlice a) _) as [r0 h'|]; [|reflexivity].
    destruct (IsReduced r0); [reflexivity|].
    rewrite Hstep. go_unfold.
    destruct (cells h' !! fresh h0) as [p|]; [|reflexivity].
    destruct p; try reflexivity; cbn;
      fold (set_cell (fresh h0) (VSlice b) h');
      (destruct (Step rf r0 (VSlice b) _) as [r1 h2|];
       [destruct (IsReduced r1)|]; reflexivity).
  - vm_compute. reflexivity.
Qed.

(** ** KeepIndexed, over any downstream reducer *)

Lemma KeepIndexed_apply (fn : Z -> value -> M value) (rf : ReducerFn)
    (h0 : heap) :
  exists r,
    KeepIndexed fn rf h0
    = Ok r (set_cell (fresh h0) (VInt 0) (Heap (cells h0) (S (fresh h0)))) /\
    Init r = Init rf /\ Result r = Result rf /\
    forall result input h,
      Step r result input h
      = (i <- load_int (fresh h0) ;;
         r <- fn i input ;;
         i <- load_int (fresh h0) ;;
         store (fresh h0) (VInt (int_add i 1)) ;;;
         if not_nil r then Step rf result r
         else ret result) h.
Proof. eexists. split; [reflexivity|]. repeat split. Qed.

Lemma feed_KeepIndexed_general (l : loc) (fn : Z -> value -> M value)
    (g : Z -> value -> value) (rf r : ReducerFn) :
  (forall result input h,
      Step r result input h
      = (i <- load_int l ;;
         r <- fn i input ;;
         i <- load_int l ;;
         store l (VInt (int_add i 1)) ;;;
         if not_nil r then Step rf result r
         else ret result) h) ->
  (forall i x h, fn i x h = Ok (g i x) h) ->
  ignores l (Step rf) ->
  forall xs i acc h,
    0 <= i ->
    i + Z.of_nat (length xs) <= int_max ->
    IsReduced acc = false ->
    same_but_cell l
      (feed (Step rf) acc (keep_indexed g i xs) h)
      (feed (Step r) acc xs (set_cell l (VInt i) h)).
Proof.
  intros Hstep Hpure Hig.
  induction xs as [|x xs IH]; intros i acc h Hi Hlen Hacc.
  - cbn. eexists. reflexivity.
  - cbn [length] in Hlen.
    cbn [feed keep_indexed]. unfold bind at 1. rewrite Hstep.
    go_unfold. rewrite lookup_set_cell. cbn. rewrite Hpure.
    rewrite lookup_set_cell. cbn.
    unfold int_add. rewrite wrap_id by int_lia.
    fold (set_cell l (VInt (i + 1)) (set_cell l (VInt i) h)).
    rewrite set_cell_set_cell.
    destruct (not_nil (g i x)).
    + cbn [feed]. unfold bind at 1. rewrite Hig.
      destruct (Step rf acc (g i x) h) as [r0 h1|]; [|reflexivity].
      destruct (IsReduced r0) eqn:Er.
      * eexists. reflexivity.
      * apply IH; [lia|lia|exact Er].
    + rewrite Hacc. apply IH; [lia|lia|exact Hacc].
Qed.

(** X14. Driving [KeepIndexed(f)(rf)] is driving [rf] over the non-nil
    values [f(i, x)], where [i] is the 0-based position of [x] among all
    the inputs: the index advances on every input, kept or not. *)
Theorem KeepIndexed_feed (fn : Z -> value -> M value)
    (g : Z -> value -> value) (rf : ReducerFn) (h0 : heap) (acc : value)
    (xs : list value)
    (Hpure : forall i x h, fn i x h = Ok (g i x) h)
    (Hlen : Z.of_nat (length xs) <= int_max)
    (Hacc : IsReduced acc = false)
    (Hig : ignores (fresh h0) (Step rf)) :
  exists r h1,
    KeepIndexed fn rf h0 = Ok r h1 /\
    same_but_cell (fresh h0)
      (feed (Step rf) acc (keep_indexed g 0 xs) h1)
      (feed (Step r) acc xs h1).
Proof.
  destruct (KeepIndexed_apply fn rf h0) as (r & Happ & _ & _ & Hstep).
  exists r. eexists. split; [exact Happ|].
  set (hB := Heap (cells h0) (S (fresh h0))).
  pose proof (feed_KeepIndexed_general (fresh h0) fn g rf r Hstep Hpure Hig
                xs 0 acc hB ltac:(lia) ltac:(lia) Hacc) as H.
  rewrite (feed_ignores _ _ Hig).
  unfold same_but_cell in *.
  destruct (feed (Step rf) acc (keep_indexed g 0 xs) hB) as [v h'|];
    [|exact H].
  destruct H as (w & H). exists w. rewrite H.
  now rewrite set_cell_set_cell.
Qed.

Lemma KeepIndexed_feed_witness :
  (forall i x h,
      (fun i x => ret (even_index_product i x)) i x h
      = Ok (even_index_product i x) h) /\
  Z.of_nat (length (ints [5; 6; 7; 8; 9])) <= int_max /\
  IsReduced (VSlice []) = false /\
  ignores (fresh empty_heap) (Step appending) /\
  exists r h1,
    KeepIndexed (fun i x => ret (even_index_product i x)) appending empty_heap
    = Ok r h1 /\
    exists w,
      feed (Step r) (VSlice []) (ints [5; 6; 7; 8; 9]) h1
      = Ok (VSlice (ints [0; 14; 36])) (set_cell 0%nat w h1).
Proof.
  assert (Hpure : forall i x h,
             (fun i x => ret (even_index_product i x)) i x h
             = Ok (even_index_product i x) h) by reflexivity.
  assert (Hlen : Z.of_nat (length (ints [5; 6; 7; 8; 9])) <= int_max)
    by (unfold int_max; cbn; lia).
  split; [exact Hpure|]. split; [exact Hlen|]. split; [reflexivity|].
  split; [apply ignores_appending|].
  destruct (KeepIndexed_feed _ even_index_product appending empty_heap
              (VSlice []) (ints [5; 6; 7; 8; 9]) Hpure Hlen eq_refl
              (ignores_appending _)) as (r & h1 & Happ & Hfeed).
  exists r, h1. split; [exact Happ|].
  injection Happ as _ <-.
  exact Hfeed.
Defined.

(** ** Stateful transducers in one pipeline *)

Lemma feed_appending (ys : list value) :
  forall acc h,
    feed (Step appending) (VSlice acc) ys h = Ok (VSlice (acc ++ ys)) h.
Proof.
  induction ys as [|y ys IH]; intros acc h.
  - cbn. now rewrite app_nil_r.
  - cbn [feed]. unfold bind. cbn. rewrite IH. now rewrite <- app_assoc.
Qed.

Lemma ignores_Take_step (l l' : loc) (rf r : ReducerFn) :
  (forall result input h,
      Step r result input h
      = (current <- load_int l' ;;
         let next := int_sub current 1 in
         store l' (VInt next) ;;;
         result <- (if 0 <? current then Step rf result input
                    else ret result) ;;
         if 0 <? next then ret result
         else EnsureReduced result) h) ->
  l <> l' ->
  ignores l (Step rf) ->
  ignores l (Step r).
Proof.
  intros Hstep Hne Hig acc x w h. rewrite !Hstep. go_unfold.
  unfold set_cell at 1. cbn [cells].
  rewrite lookup_insert_ne by congruence.
  destruct (cells h !! l') as [v|]; [|reflexivity].
  destruct v; try reflexivity. cbn.
  set (c' := int_sub z 1).
  change (Heap (<[l' := VInt c']> (cells (set_cell l w h)))
               (fresh (set_cell l w h)))
    with (set_cell l' (VInt c') (set_cell l w h)).
  change (Heap (<[l' := VInt c']> (cells h)) (fresh h))
    with (set_cell l' (VInt c') h).
  rewrite <- set_cell_comm by congruence.
  destruct (0 <? z).
  - rewrite Hig.
    destruct (Step rf acc x (set_cell l' (VInt c') h)) as [r0 h1|];
      [|reflexivity].
    destruct (0 <? c'); [reflexivity|].
    unfold EnsureReduced. destruct (IsReduced r0); reflexivity.
  - destruct (0 <? c'); [reflexivity|].
    unfold EnsureReduced. destruct (IsReduced acc); reflexivity.
Qed.

(** X15. [Compose(Drop(n), Take(m))] over any inputs forwards the first
    [m] of the inputs that follow the first [n]: the leftmost transducer
    sees the inputs first, and each keeps its own counter. *)
Theorem Drop_then_Take (n m : Z) (xs : list value)
    (Hn : n <= int_max)
    (Hm : int_min < m <= int_max) :
  value_of (transduce (Compose [Drop n; Take m]) appending (VSlice [])
              xs empty_heap)
  = Some (VSlice (firstn (Z.to_nat m) (skipn (Z.to_nat n) xs))).
Proof.
  destruct (Take_apply m appending empty_heap)
    as (rT & HappT & _ & HresT & HstepT).
  set (hT := Heap (<[fresh empty_heap := VInt m]> (cells empty_heap))
                  (S (fresh empty_heap))) in HappT.
  destruct (Drop_apply n rT hT) as (rD & HappD & _ & HresD & HstepD).
  assert (HigT : ignores 1%nat (Step rT)).
  { apply (ignores_Take_step 1%nat 0%nat appending rT HstepT);
      [lia|apply ignores_appending]. }
  pose proof (feed_Take_general 0%nat appending rT HstepT
                (ignores_appending _) (skipn (Z.to_nat n) xs) m (VSlice [])
                (Heap ∅ 2%nat) Hm) as HT.
  rewrite feed_appending in HT. cbn [app] in HT.
  destruct HT as (v' & h'' & HfeedT & Hv & _).
  pose proof (feed_Drop_general 1%nat n rT rD HstepD HigT Hn xs 0 (VSlice [])
                (set_cell 0%nat (VInt m) (Heap ∅ 2%nat))
                ltac:(lia) eq_refl) as HD.
  rewrite Z.sub_0_r in HD. unfold same_but_cell in HD.
  rewrite HfeedT in HD. destruct HD as (w & HfeedD).
  unfold transduce, Compose. cbn [fold_left].
  unfold Transducer_Compose. unfold bind at 1. unfold bind at 1.
  rewrite HappT, HappD.
  unfold bind at 1.
  change (set_cell (fresh hT) (VInt 0) (Heap (cells hT) (S (fresh hT))))
    with (set_cell 1%nat (VInt 0)
            (set_cell 0%nat (VInt m) (Heap ∅ 2%nat))).
  rewrite HfeedD. rewrite HresD, HresT. cbn in Hv. rewrite Hv. reflexivity.
Qed.

Lemma Drop_then_Take_witness :
  3 <= int_max /\ int_min < 2 <= int_max /\
  value_of (transduce (Compose [Drop 3; Take 2]) appending (VSlice [])
              (ints [1; 2; 3; 4; 5; 6; 7; 8; 9; 10]) empty_heap)
  = Some (VSlice (ints [4; 5])).
Proof.
  assert (Hn : 3 <= int_max) by (unfold int_max; lia).
  assert (Hm : int_min < 2 <= int_max) by (unfold int_min, int_max; lia).
  split; [exact Hn|]. split; [exact Hm|].
  exact (Drop_then_Take 3 2 (ints [1; 2; 3; 4; 5; 6; 7; 8; 9; 10]) Hn Hm).
Defined.

(** ** PartitionAll *)

Lemma chunks_spec (n : Z) (xs : list value) :
  forall buf,
    concat (fst (chunks n buf xs)) ++ snd (chunks n buf xs) = buf ++ xs /\
    Forall (fun p => Z.of_nat (length p) = n) (fst (chunks n buf xs)) /\
    (Z.of_nat (length buf) < n ->
     Z.of_nat (length (snd (chunks n buf xs))) < n).
Proof.
  induction xs as [|x xs IH]; intros buf.
  - cbn. rewrite app_nil_r. repeat split; [constructor|auto].
  - cbn [chunks].
    destruct (n =? Z.of_nat (length (buf ++ [x]))) eqn:E.
    + destruct (IH []) as (Hc & Hf & Hr).
      destruct (chunks n [] xs) as [ps rest]. cbn [fst snd] in *.
      split; [|split].
      * cbn [concat]. rewrite <- !app_assoc. cbn [app] in Hc.
        rewrite Hc. reflexivity.
      * constructor; [apply Z.eqb_eq in E; lia|exact Hf].
      * intros _. apply Hr. apply Z.eqb_eq in E.
        rewrite length_app in E. cbn in *. lia.
    + destruct (IH (buf ++ [x])) as (Hc & Hf & Hr).
      split; [|split].
      * rewrite Hc. now rewrite <- app_assoc.
      * exact Hf.
      * intros Hb. apply Hr. apply Z.eqb_neq in E.
        rewrite length_app in *. cbn in *. lia.
Qed.

Lemma PartitionAll_apply_step (n : Z) (rf : ReducerFn) (h0 : heap) :
  0 <= n <= max_cap ->
  exists r,
    PartitionAll n rf h0
    = Ok r (set_cell (fresh h0) (VSlice [])
              (Heap (cells h0) (S (fresh h0)))) /\
    (forall result h,
        Result r result h
        = (p <- load_slice (fresh h0) ;;
           if 0 <? Z.of_nat (length p) then
             store (fresh h0) (VSlice []) ;;;
             r0 <- Step rf result (VSlice p) ;;
             Result rf r0
           else Result rf result) h) /\
    forall result input h,
      Step r result input h
      = (p <- load_slice (fresh h0) ;;
         let p := p ++ [input] in
         store (fresh h0) (VSlice p) ;;;
         if n =? Z.of_nat (length p) then
           store (fresh h0) (VSlice []) ;;;
           Step rf result (VSlice p)
         else ret result) h.
Proof.
  intros Hn. unfold PartitionAll. rewrite (make_slice_in_range n Hn).
  eexists. split; [reflexivity|]. split; reflexivity.
Qed.

Lemma feed_PartitionAll_general (l : loc) (n : Z) (rf r : ReducerFn) :
  (forall result input h,
      Step r result input h
      = (p <- load_slice l ;;
         let p := p ++ [input] in
         store l (VSlice p) ;;;
         if n =? Z.of_nat (length p) then
           store l (VSlice []) ;;;
           Step rf result (VSlice p)
         else ret result) h) ->
  ignores l (Step rf) ->
  forall xs buf acc h,
    IsReduced acc = false ->
    same_with_cell l
      (feed (Step rf) acc (map VSlice (fst (chunks n buf xs))) h)
      (feed (Step r) acc xs (set_cell l (VSlice buf) h))
      (VSlice (snd (chunks n buf xs))).
Proof.
  intros Hstep Hig.
  induction xs as [|x xs IH]; intros buf acc h Hacc.
  - cbn. eexists. split; [reflexivity|]. reflexivity.
  - cbn [feed chunks]. unfold bind at 1. rewrite Hstep.
    go_unfold. rewrite lookup_set_cell. cbn.
    fold (set_cell l (VSlice (buf ++ [x])) (set_cell l (VSlice buf) h)).
    rewrite set_cell_set_cell.
    destruct (n =? Z.of_nat (length (buf ++ [x]))) eqn:E.
    + fold (set_cell l (VSlice []) (set_cell l (VSlice (buf ++ [x])) h)).
      rewrite set_cell_set_cell.
      specialize (IH []).
      destruct (chunks n [] xs) as [ps rest]. cbn [fst snd map feed] in *.
      unfold bind at 1. rewrite Hig.
      destruct (Step rf acc (VSlice (buf ++ [x])) h) as [r0 h1|];
        [|reflexivity].
      destruct (IsReduced r0) eqn:Er.
      * eexists. split; [reflexivity|]. intros Hno. congruence.
      * exact (IH r0 h1 Er).
    + rewrite Hacc. exact (IH (buf ++ [x]) acc h Hacc).
Qed.

(** X16. Driving [PartitionAll(n)(rf)], [0 <= n <= max_cap] (a capacity
    [make] accepts), is driving [rf] over the partitions the inputs
    complete, each handed over as one slice of
    exactly [n] consecutive inputs, in order; what has not filled a
    partition (fewer than [n] inputs) stays in the buffer. *)
Theorem PartitionAll_feed (n : Z) (rf : ReducerFn) (h0 : heap) (acc : value)
    (xs : list value)
    (Hn : 0 <= n <= max_cap)
    (Hacc : IsReduced acc = false)
    (Hig : ignores (fresh h0) (Step rf)) :
  exists r h1,
    PartitionAll n rf h0 = Ok r h1 /\
    same_with_cell (fresh h0)
      (feed (Step rf) acc (map VSlice (fst (chunks n [] xs))) h1)
      (feed (Step r) acc xs h1)
      (VSlice (snd (chunks n [] xs))) /\
    concat (fst (chunks n [] xs)) ++ snd (chunks n [] xs) = xs /\
    Forall (fun p => Z.of_nat (length p) = n) (fst (chunks n [] xs)) /\
    (n = 0 \/ Z.of_nat (length (snd (chunks n [] xs))) < n).
Proof.
  destruct (PartitionAll_apply_step n rf h0 Hn) as (r & Happ & _ & Hstep).
  exists r. eexists. split; [exact Happ|].
  destruct (chunks_spec n xs []) as (Hc & Hf & Hr).
  split; [|split; [exact Hc|split; [exact Hf|]]].
  - set (hB := Heap (cells h0) (S (fresh h0))).
    pose proof (feed_PartitionAll_general (fresh h0) n rf r Hstep Hig
                  xs [] acc hB Hacc) as H.
    rewrite (feed_ignores _ _ Hig).
    unfold same_with_cell in *.
    destruct (feed (Step rf) acc (map VSlice (fst (chunks n [] xs))) hB)
      as [v h'|]; [|exact H].
    destruct H as (w & H & Hw). exists w. rewrite H.
    now rewrite set_cell_set_cell.
  - destruct (Z.eq_dec n 0) as [->|Hne]; [now left|].
    right. apply Hr. cbn. lia.
Qed.

Lemma PartitionAll_feed_witness :
  0 <= 3 <= max_cap /\
  IsReduced (VSlice []) = false /\
  ignores (fresh empty_heap) (Step appending) /\
  exists r h1,
    PartitionAll 3 appending empty_heap = Ok r h1 /\
    exists w,
      feed (Step r) (VSlice []) (ints [1; 2; 3; 4; 5; 6; 7]) h1
      = Ok (VSlice [VSlice (ints [1; 2; 3]); VSlice (ints [4; 5; 6])])
           (set_cell 0%nat w h1) /\
      (IsReduced (VSlice [VSlice (ints [1; 2; 3]); VSlice (ints [4; 5; 6])])
       = false -> w = VSlice (ints [7])).
Proof.
  split; [unfold max_cap; lia|].
  split; [reflexivity|]. split; [apply ignores_appending|].
  destruct (PartitionAll_feed 3 appending empty_heap (VSlice [])
              (ints [1; 2; 3; 4; 5; 6; 7]) ltac:(unfold max_cap; lia) eq_refl
              (ignores_appending _)) as (r & h1 & Happ & Hfeed & _).
  exists r, h1. split; [exact Happ|].
  injection Happ as _ <-.
  exact Hfeed.
Defined.

Lemma chunks_0 (xs : list value) :
  forall buf, chunks 0 buf xs = ([], buf ++ xs).
Proof.
  induction xs as [|x xs IH]; intros buf.
  - cbn. now rewrite app_nil_r.
  - cbn [chunks]. replace (0 =? Z.of_nat (length (buf ++ [x]))) with false.
    + rewrite IH. now rewrite <- app_assoc.
    + symmetry. apply Z.eqb_neq. rewrite length_app. cbn. lia.
Qed.

Lemma PartitionAll_transduce_appending (n : Z) (xs : list value) :
  0 <= n <= max_cap ->
  value_of (transduce (PartitionAll n) appending (VSlice []) xs empty_heap)
  = Some (VSlice (map VSlice (fst (chunks n [] xs)
                              ++ pending (snd (chunks n [] xs))))).
Proof.
  intros Hn.
  destruct (PartitionAll_apply_step n appending empty_heap Hn)
    as (r & Happ & Hres & Hstep).
  unfold transduce. unfold bind at 1. rewrite Happ.
  set (hB := Heap (cells empty_heap) (S (fresh empty_heap))).
  pose proof (feed_PartitionAll_general (fresh empty_heap) n appending r
                Hstep (ignores_appending _) xs [] (VSlice []) hB eq_refl)
    as H.
  rewrite feed_appending in H. cbn [app] in H.
  destruct H as (w & Hfeed & Hw). specialize (Hw eq_refl). subst w.
  unfold bind at 1. rewrite Hfeed. cbn [Unreduced IsReduced].
  rewrite Hres. go_unfold. rewrite lookup_set_cell. cbn.
  destruct (snd (chunks n [] xs)) as [|y rest]; cbn.
  - now rewrite app_nil_r.
  - now rewrite map_app.
Qed.

(** X17. Into a collecting sink, [PartitionAll(n)], [1 <= n <= max_cap]
    (a capacity [make] accepts), delivers the inputs cut into consecutive partitions: every partition but
    possibly the last has exactly [n] inputs, the last, flushed on finish,
    has between 1 and [n], and the partitions put end to end are the
    inputs. *)
Theorem PartitionAll_transduce (n : Z) (xs : list value)
    (Hn : 1 <= n <= max_cap) :
  exists parts,
    value_of (transduce (PartitionAll n) appending (VSlice []) xs empty_heap)
    = Some (VSlice (map VSlice parts)) /\
    concat parts = xs /\
    Forall (fun p => Z.of_nat (length p) = n) (removelast parts) /\
    Forall (fun p => 1 <= Z.of_nat (length p) <= n) parts.
Proof.
  destruct (chunks_spec n xs []) as (Hc & Hf & Hr).
  specialize (Hr ltac:(cbn; lia)).
  exists (fst (chunks n [] xs) ++ pending (snd (chunks n [] xs))).
  split; [apply PartitionAll_transduce_appending; lia|].
  destruct (chunks n [] xs) as [ps rest]. cbn [fst snd] in *.
  destruct rest as [|y rest]; cbn [pending].
  - rewrite app_nil_r in *. split; [exact Hc|]. split.
    + clear Hc. induction Hf as [|p ps' Hp Hps IHf]; [constructor|].
      destruct ps'; cbn; [constructor|].
      constructor; [exact Hp|exact IHf].
    + eapply Forall_impl; [exact Hf|]. cbn. intros p Hp. lia.
  - split; [|split].
    + rewrite concat_app. cbn. now rewrite app_nil_r.
    + rewrite removelast_last. exact Hf.
    + apply Forall_app. split.
      * eapply Forall_impl; [exact Hf|]. cbn. intros p Hp. lia.
      * constructor; [|constructor]. cbn in *. lia.
Qed.

Lemma PartitionAll_transduce_witness :
  1 <= 3 <= max_cap /\
  exists parts,
    value_of (transduce (PartitionAll 3) appending (VSlice [])
                (ints [1; 2; 3; 4; 5; 6; 7]) empty_heap)
    = Some (VSlice (map VSlice parts)) /\
    concat parts = ints [1; 2; 3; 4; 5; 6; 7] /\
    Forall (fun p => Z.of_nat (length p) = 3) (removelast parts) /\
    Forall (fun p => 1 <= Z.of_nat (length p) <= 3) parts.
Proof.
  split; [unfold max_cap; lia|].
  exact (PartitionAll_transduce 3 (ints [1; 2; 3; 4; 5; 6; 7])
           ltac:(unfold max_cap; lia)).
Defined.

(** X18. [PartitionAll] outside [n >= 1]: a negative [n] panics when the
    transducer is applied to a sink (the buffer cannot be made); with
    [n = 0] no partition is ever complete, every input is buffered, and
    finish hands the sink all the inputs as one partition. *)
Theorem PartitionAll_nonpositive :
  (forall n rf h0,
      n < 0 ->
      PartitionAll n rf h0
      = Panic "runtime error: makeslice: cap out of range") /\
  (forall xs,
      value_of (transduce (PartitionAll 0) appending (VSlice []) xs
                  empty_heap)
      = Some (VSlice (map VSlice (pending xs)))).
Proof.
  split.
  - intros n rf h0 Hn. unfold PartitionAll, make_slice, bind.
    replace (n <? 0) with true by lia. reflexivity.
  - intros xs.
    rewrite PartitionAll_transduce_appending by (unfold max_cap; lia).
    rewrite chunks_0. reflexivity.
Qed.

Lemma PartitionAll_nonpositive_witness :
  -1 < 0 /\
  PartitionAll (-1) appending empty_heap
  = Panic "runtime error: makeslice: cap out of range" /\
  value_of (transduce (PartitionAll 0) appending (VSlice [])
              (ints [1; 2; 3]) empty_heap)
  = Some (VSlice [VSlice (ints [1; 2; 3])]).
Proof.
  split; [lia|].
  destruct PartitionAll_nonpositive as [Hneg Hzero].
  split.
  - apply Hneg. lia.
  - exact (Hzero (ints [1; 2; 3])).
Defined.

(** ** PartitionBy *)

Lemma groups_cons (k : value -> value) (x : value) (xs : list value) :
  groups k (x :: xs)
  = match groups k xs with
    | (y :: g) :: gs =>
        if veqb (k x) (k y) then (x :: y :: g) :: gs
        else [x] :: (y :: g) :: gs
    | _ => [[x]]
    end.
Proof. reflexivity. Qed.

Lemma groups_head (k : value -> value) (x : value) (xs : list value) :
  exists g gs, groups k (x :: xs) = (x :: g) :: gs.
Proof.
  cbn [groups]. destruct (groups k xs) as [|[|y g] gs]; eauto.
  destruct (veqb (k x) (k y)); eauto.
Qed.

Lemma same_keys_snoc (k : value -> value) (y x : value) :
  forall pre,
    same_keys k (pre ++ [y]) = true ->
    veqb (k y) (k x) = true ->
    same_keys k ((pre ++ [y]) ++ [x]) = true.
Proof.
  induction pre as [|a pre IH]; intros Hs Hyx.
  - cbn. now rewrite Hyx.
  - cbn [app] in *. cbn [same_keys] in Hs.
    destruct (pre ++ [y]) as [|b t] eqn:E.
    + destruct pre; discriminate E.
    + apply andb_true_iff in Hs. destruct Hs as [Hab Ht].
      cbn [app same_keys]. rewrite Hab. cbn [andb].
      apply (IH Ht Hyx).
Qed.

Lemma groups_one_run (k : value -> value) (y : value) :
  forall pre,
    same_keys k (pre ++ [y]) = true ->
    groups k (pre ++ [y]) = [pre ++ [y]].
Proof.
  induction pre as [|a pre IH]; intros Hs.
  - reflexivity.
  - cbn [app] in *. cbn [same_keys] in Hs.
    destruct (pre ++ [y]) as [|b t] eqn:E.
    + destruct pre; discriminate E.
    + apply andb_true_iff in Hs. destruct Hs as [Hab Ht].
      rewrite groups_cons, (IH Ht). now rewrite Hab.
Qed.

Lemma groups_new_run (k : value -> value) (y x : value) (xs : list value) :
  forall pre,
    same_keys k (pre ++ [y]) = true ->
    veqb (k y) (k x) = false ->
    groups k ((pre ++ [y]) ++ x :: xs) = (pre ++ [y]) :: groups k (x :: xs).
Proof.
  destruct (groups_head k x xs) as (g & gs & Hg).
  induction pre as [|a pre IH]; intros Hs Hyx.
  - cbn [app]. rewrite groups_cons, Hg. now rewrite Hyx.
  - cbn [app] in *. cbn [same_keys] in Hs.
    destruct (pre ++ [y]) as [|b t] eqn:E.
    + destruct pre; discriminate E.
    + apply andb_true_iff in Hs. destruct Hs as [Hab Ht].
      rewrite groups_cons, (IH Ht Hyx). now rewrite Hab.
Qed.

Lemma lookup_set_cell_ne (l l' : loc) (w : value) (h : heap) :
  l <> l' -> cells (set_cell l w h) !! l' = cells h !! l'.
Proof. intros Hne. unfold set_cell. cbn. now apply lookup_insert_ne. Qed.

Ltac fold_set_cell :=
  repeat match goal with
    | |- context [Heap (<[?l := ?v]> (cells ?h)) (fresh ?h)] =>
        change (Heap (<[l := v]> (cells h)) (fresh h)) with (set_cell l v h)
    end.

Lemma PartitionBy_apply (f : mapper) (rf : ReducerFn) (h0 : heap) :
  exists r h1,
    PartitionBy f rf h0 = Ok r h1 /\
    h1 = Heap (<[S (S (fresh h0)) := VPtr (S (fresh h0))]>
                 (<[S (fresh h0) := VInt 0]>
                    (<[fresh h0 := VSlice []]> (cells h0))))
              (S (S (S (fresh h0)))) /\
    (forall result h,
        Result r result h
        = (p <- load_slice (fresh h0) ;;
           if 0 <? Z.of_nat (length p) then
             store (fresh h0) (VSlice []) ;;;
             r0 <- Step rf result (VSlice p) ;;
             Result rf (Unreduced r0)
           else Result rf result) h) /\
    forall result input h,
      Step r result input h
      = (val <- f input ;;
         pval <- load (S (S (fresh h0))) ;;
         store (S (S (fresh h0))) val ;;;
         same <- (if eq_ptr pval (S (fresh h0)) then ret true
                  else go_eq pval val) ;;
         if same then
           p <- load_slice (fresh h0) ;;
           store (fresh h0) (VSlice (p ++ [input])) ;;;
           ret result
         else
           p <- load_slice (fresh h0) ;;
           store (fresh h0) (VSlice []) ;;;
           r0 <- Step rf result (VSlice p) ;;
           if negb (IsReduced r0) then
             p <- load_slice (fresh h0) ;;
             store (fresh h0) (VSlice (p ++ [input])) ;;;
             ret r0
           else ret r0) h.
Proof. do 2 eexists. split; [reflexivity|]. repeat split. Qed.

Section PartitionBy_appending.
Variables (f : mapper) (k : value -> value).
Variables (part mark prior : loc) (r : ReducerFn).
Hypothesis Hpure : pure_fn f k.
Hypothesis Hhash : forall x, hashable (k x) = true.
Hypothesis Hmark : forall x, eq_ptr (k x) mark = false.
Hypothesis Hne : part <> prior.
Hypothesis Hresult : forall result h,
    Result r result h
    = (p <- load_slice part ;;
       if 0 <? Z.of_nat (length p) then
         store part (VSlice []) ;;;
         r0 <- Step appending result (VSlice p) ;;
         Result appending (Unreduced r0)
       else Result appending result) h.
Hypothesis Hstep : forall result input h,
    Step r result input h
    = (val <- f input ;;
       pval <- load prior ;;
       store prior val ;;;
       same <- (if eq_ptr pval mark then ret true
                else go_eq pval val) ;;
       if same then
         p <- load_slice part ;;
         store part (VSlice (p ++ [input])) ;;;
         ret result
       else
         p <- load_slice part ;;
         store part (VSlice []) ;;;
         r0 <- Step appending result (VSlice p) ;;
         if negb (IsReduced r0) then
           p <- load_slice part ;;
           store part (VSlice (p ++ [input])) ;;;
           ret r0
         else ret r0) h.

(** The heap with [buf] buffered and [p] as the previous key. *)
Let st (buf : list value) (p : value) (h : heap) : heap :=
  set_cell part (VSlice buf) (set_cell prior p h).

Lemma st_prior (buf : list value) (p v : value) (h : heap) :
  set_cell prior v (st buf p h) = st buf v h.
Proof.
  unfold st. rewrite set_cell_comm by congruence.
  now rewrite set_cell_set_cell.
Qed.

Lemma st_part (buf buf' : list value) (p : value) (h : heap) :
  set_cell part (VSlice buf') (st buf p h) = st buf' p h.
Proof. unfold st. now rewrite set_cell_set_cell. Qed.

Lemma st_lookup_prior (buf : list value) (p : value) (h : heap) :
  cells (st buf p h) !! prior = Some p.
Proof.
  unfold st. rewrite lookup_set_cell_ne by congruence.
  apply lookup_set_cell.
Qed.

Lemma st_lookup_part (buf : list value) (p : value) (h : heap) :
  cells (st buf p h) !! part = Some (VSlice buf).
Proof. unfold st. apply lookup_set_cell. Qed.

Lemma PartitionBy_run_buffered (xs : list value) :
  forall pre y out h,
    same_keys k (pre ++ [y]) = true ->
    value_of ((acc <- feed (Step r) (VSlice out) xs ;;
               Result r (Unreduced acc)) (st (pre ++ [y]) (k y) h))
    = Some (VSlice (out ++ map VSlice (groups k ((pre ++ [y]) ++ xs)))).
Proof.
  induction xs as [|x xs IH]; intros pre y out h Hs.
  - unfold bind. cbn [feed]. unfold ret. cbn [Unreduced IsReduced].
    rewrite Hresult. go_unfold. rewrite st_lookup_part.
    rewrite app_nil_r, (groups_one_run k y pre Hs).
    destruct (pre ++ [y]) eqn:E; [destruct pre; discriminate E|].
    reflexivity.
  - unfold bind at 1. cbn [feed]. unfold bind at 1. rewrite Hstep.
    go_unfold. rewrite Hpure. rewrite st_lookup_prior.
    fold_set_cell. rewrite st_prior. rewrite Hmark.
    rewrite go_eq_veqb by apply Hhash.
    destruct (veqb (k y) (k x)) eqn:Eyx.
    + rewrite st_lookup_part. fold_set_cell. rewrite st_part.
      cbn [IsReduced].
      specialize (IH (pre ++ [y]) x out h
                    (same_keys_snoc k y x pre Hs Eyx)).
      unfold bind in IH.
      replace ((pre ++ [y]) ++ x :: xs) with (((pre ++ [y]) ++ [x]) ++ xs)
        by (now rewrite <- !app_assoc).
      exact IH.
    + rewrite st_lookup_part. fold_set_cell. rewrite st_part.
      cbn. rewrite st_lookup_part. fold_set_cell. rewrite st_part.
      specialize (IH [] x (out ++ [VSlice (pre ++ [y])]) h eq_refl).
      unfold bind in IH. cbn [app] in IH.
      rewrite (groups_new_run k y x xs pre Hs Eyx).
      cbn [map]. rewrite <- app_assoc in IH. exact IH.
Qed.

Lemma PartitionBy_run (xs : list value) (h : heap) :
  value_of ((acc <- feed (Step r) (VSlice []) xs ;;
             Result r (Unreduced acc)) (st [] (VPtr mark) h))
  = Some (VSlice (map VSlice (groups k xs))).
Proof.
  destruct xs as [|x xs].
  - unfold bind. cbn [feed]. unfold ret. cbn [Unreduced IsReduced].
    rewrite Hresult. go_unfold. rewrite st_lookup_part. reflexivity.
  - unfold bind at 1. cbn [feed]. unfold bind at 1. rewrite Hstep.
    go_unfold. rewrite Hpure. rewrite st_lookup_prior.
    fold_set_cell. rewrite st_prior.
    cbn [eq_ptr]. rewrite Nat.eqb_refl.
    rewrite st_lookup_part. fold_set_cell. rewrite st_part.
    cbn [IsReduced app].
    pose proof (PartitionBy_run_buffered xs [] x [] h eq_refl) as H.
    unfold bind in H. cbn [app] in H. exact H.
Qed.
End PartitionBy_appending.

Lemma concat_groups (k : value -> value) (xs : list value) :
  concat (groups k xs) = xs.
Proof.
  induction xs as [|x xs IH]; [reflexivity|].
  rewrite groups_cons. destruct xs as [|x' xs']; [reflexivity|].
  destruct (groups_head k x' xs') as (g & gs & Hg).
  rewrite Hg in *. destruct (veqb (k x) (k x')); cbn in *; now rewrite IH.
Qed.

Lemma same_keys_groups (k : value -> value) (xs : list value) :
  Forall (fun g => g <> [] /\ same_keys k g = true) (groups k xs).
Proof.
  induction xs as [|x xs IH]; [constructor|].
  rewrite groups_cons. destruct (groups k xs) as [|[|y g] gs].
  - repeat constructor. discriminate.
  - repeat constructor. discriminate.
  - inversion IH as [|? ? [_ Hg] Hgs]; subst.
    destruct (veqb (k x) (k y)) eqn:E.
    + constructor; [|exact Hgs]. split; [discriminate|].
      cbn [same_keys]. rewrite E. exact Hg.
    + constructor; [split; [discriminate|reflexivity]|].
      constructor; [|exact Hgs]. split; [discriminate|exact Hg].
Qed.

(** X19. Into a collecting sink, [PartitionBy(f)] delivers the inputs cut
    into the maximal runs of consecutive inputs with equal keys, the last
    run being flushed on finish: no run is empty, equal keys run together,
    and the runs put end to end are the inputs.  The key function has no
    effect, and its keys can be compared and are not the private
    marker. *)
Theorem PartitionBy_transduce (f : mapper) (k : value -> value)
    (xs : list value)
    (Hpure : pure_fn f k)
    (Hhash : forall x, hashable (k x) = true)
    (Hmark : forall x, eq_ptr (k x) 1%nat = false) :
  value_of (transduce (PartitionBy f) appending (VSlice []) xs empty_heap)
  = Some (VSlice (map VSlice (groups k xs))) /\
  concat (groups k xs) = xs /\
  Forall (fun g => g <> [] /\ same_keys k g = true) (groups k xs).
Proof.
  split; [|split; [apply concat_groups|apply same_keys_groups]].
  destruct (PartitionBy_apply f appending empty_heap)
    as (r & h1 & Happ & -> & Hres & Hstep).
  unfold transduce. unfold bind at 1. rewrite Happ.
  cbn [empty_heap fresh cells] in *.
  replace (Heap (<[2%nat := VPtr 1%nat]>
                   (<[1%nat := VInt 0]> (<[0%nat := VSlice []]> ∅))) 3%nat)
    with (set_cell 0%nat (VSlice [])
            (set_cell 2%nat (VPtr 1%nat)
               (Heap (<[1%nat := VInt 0]> ∅) 3%nat)))
    by (vm_compute; reflexivity).
  apply (PartitionBy_run f k 0%nat 1%nat 2%nat r Hpure Hhash Hmark
           ltac:(lia) Hres Hstep).
Qed.

Lemma PartitionBy_transduce_witness :
  pure_fn odd_key_fn odd_key /\
  (forall x, hashable (odd_key x) = true) /\
  (forall x, eq_ptr (odd_key x) 1%nat = false) /\
  value_of (transduce (PartitionBy odd_key_fn) appending (VSlice [])
              (ints [1; 1; 2; 2; 3; 5; 6]) empty_heap)
  = Some (VSlice [VSlice (ints [1; 1]); VSlice (ints [2; 2]);
                  VSlice (ints [3; 5]); VSlice (ints [6])]).
Proof.
  assert (Hpure : pure_fn odd_key_fn odd_key) by (intros x h; reflexivity).
  assert (Hhash : forall x, hashable (odd_key x) = true)
    by (intros x; destruct x; reflexivity).
  assert (Hmark : forall x, eq_ptr (odd_key x) 1%nat = false)
    by (intros x; destruct x; reflexivity).
  split; [exact Hpure|]. split; [exact Hhash|]. split; [exact Hmark|].
  exact (proj1 (PartitionBy_transduce odd_key_fn odd_key
                  (ints [1; 1; 2; 2; 3; 5; 6]) Hpure Hhash Hmark)).
Defined.

(** ** Cat with a slice traversal *)

Lemma feed_app (step : reducingFn) (l1 l2 : list value) :
  forall acc h,
    IsReduced acc = false ->
    feed step acc (l1 ++ l2) h
    = match feed step acc l1 h with
      | Ok v h' => if IsReduced v then Ok v h' else feed step v l2 h'
      | Panic msg => Panic msg
      end.
Proof.
  induction l1 as [|x l1 IH]; intros acc h Hacc.
  - cbn. now rewrite Hacc.
  - cbn [app feed]. unfold bind.
    destruct (step acc x h) as [r0 h1|]; [|reflexivity].
    destruct (IsReduced r0) eqn:Er.
    + cbn. now rewrite Er.
    + now apply IH.
Qed.

Lemma fold_slice_PreservingReduced (rf : ReducerFn) (l : list value) :
  forall acc h,
    same_value_and_cells
      (feed (Step rf) acc l h)
      (fold_slice (Step (PreservingReduced rf)) acc l h).
Proof.
  induction l as [|x l IH]; intros acc h.
  - cbn. eexists. repeat split.
  - cbn [feed fold_slice]. unfold PreservingReduced at 1. go_unfold.
    destruct (Step rf acc x h) as [r0 h1|]; [|reflexivity].
    destruct (IsReduced r0) eqn:Er.
    + cbn. eexists. split; [reflexivity|]. split; [reflexivity|].
      intros Hno. congruence.
    + cbn. rewrite Er. apply IH.
Qed.

Lemma feed_Cat_reduce_slice (rf r : ReducerFn) :
  (forall result input h,
      Step r result input h
      = reduce_slice (Step (PreservingReduced rf)) result input h) ->
  forall xss acc h,
    IsReduced acc = false ->
    same_value_and_cells
      (feed (Step rf) acc (concat xss) h)
      (feed (Step r) acc (map VSlice xss) h).
Proof.
  intros Hstep.
  induction xss as [|l xss IH]; intros acc h Hacc.
  - cbn. eexists. repeat split.
  - cbn [concat map feed]. rewrite (feed_app _ _ _ _ _ Hacc).
    unfold bind at 1. rewrite Hstep. unfold reduce_slice.
    pose proof (fold_slice_PreservingReduced rf l acc h) as H.
    unfold same_value_and_cells in H.
    destruct (feed (Step rf) acc l h) as [v h'|].
    + destruct H as (h'' & -> & Hcells & Hsame).
      destruct (IsReduced v) eqn:Ev.
      * eexists. split; [reflexivity|]. split; [exact Hcells|].
        intros Hno. congruence.
      * rewrite (Hsame eq_refl). now apply IH.
    + rewrite H. reflexivity.
Qed.

(** X20. With a traversal that folds a slice and unwraps the Reduced
    result it stops on, [Cat] flattens for every downstream reducer:
    driving [Cat(reduce_slice)(rf)] over slices is driving [rf] over their
    elements, one after the other.  When [rf] stops inside a slice its own
    Reduced value comes out of the step of [Cat], wrapped once: the
    preserving-reduced box is what the traversal removed. *)
Theorem Cat_feed_slices (rf : ReducerFn) (h0 : heap) (acc : value)
    (Hacc : IsReduced acc = false) :
  exists r,
    Cat reduce_slice rf h0 = Ok r h0 /\
    forall xss h,
      same_value_and_cells
        (feed (Step rf) acc (concat xss) h)
        (feed (Step r) acc (map VSlice xss) h).
Proof.
  eexists. split; [reflexivity|].
  intros xss h. apply feed_Cat_reduce_slice; [reflexivity|exact Hacc].
Qed.

Lemma Cat_feed_slices_witness :
  IsReduced (VSlice []) = false /\
  exists r,
    Cat reduce_slice appending empty_heap = Ok r empty_heap /\
    exists h'',
      feed (Step r) (VSlice [])
        [VSlice (ints [1; 2]); VSlice []; VSlice (ints [3])] empty_heap
      = Ok (VSlice (ints [1; 2; 3])) h''.
Proof.
  split; [reflexivity|].
  destruct (Cat_feed_slices appending empty_heap (VSlice []) eq_refl)
    as (r & Happ & Hfeed).
  exists r. split; [exact Happ|].
  destruct (Hfeed [ints [1; 2]; []; ints [3]] empty_heap)
    as (h'' & H & _).
  exists h''. exact H.
Defined.

(** ** The termination marker, on any value *)

(** X21. [EnsureReduced] of any value is Reduced, holds what [Unreduced]
    of the value is, allocates exactly when the value was not Reduced
    already, and applying it again changes nothing; so it never nests a
    box it is handed, however deep that box already is. *)
Theorem EnsureReduced_any :
  forall (v : value) (h : heap),
  exists r h',
    EnsureReduced v h = Ok r h' /\
    IsReduced r = true /\
    Unreduced r = Unreduced v /\
    cells h' = cells h /\
    fresh h' = (if IsReduced v then fresh h else S (fresh h)) /\
    EnsureReduced r h' = Ok r h'.
Proof.
  intros v h. unfold EnsureReduced.
  destruct (IsReduced v) eqn:E.
  - exists v, h. rewrite E. repeat split; assumption.
  - do 2 eexists. split; [reflexivity|]. cbn.
    repeat split. unfold Unreduced. now rewrite E.
Qed.

(** ** TakeNth and Interpose, over any downstream reducer *)

(** X22. The sign of [n] does not matter to [TakeNth]: Go's remainder is
    zero for [count % -n] exactly when it is for [count % n], so
    [TakeNth(-n)] builds a reducer with the same steps as [TakeNth(n)]
    (and both panic for [n = 0]). *)
Theorem TakeNth_sign :
  forall (n : Z) (rf : ReducerFn) (h0 : heap),
  exists r r' h1,
    TakeNth n rf h0 = Ok r h1 /\
    TakeNth (- n) rf h0 = Ok r' h1 /\
    forall result input h,
      Step r' result input h = Step r result input h.
Proof.
  intros n rf h0.
  destruct (TakeNth_apply n rf h0) as (r & Happ & _ & _ & Hstep).
  destruct (TakeNth_apply (- n) rf h0) as (r' & Happ' & _ & _ & Hstep').
  exists r, r'. eexists. split; [exact Happ|]. split; [exact Happ'|].
  intros result input h. rewrite Hstep, Hstep'. go_unfold.
  destruct (cells h !! fresh h0) as [v|]; [|reflexivity].
  destruct v; try reflexivity. cbn.
  unfold int_rem. replace (- n =? 0) with (n =? 0) by lia.
  destruct (n =? 0) eqn:E; [reflexivity|].
  go_unfold. rewrite Z.rem_opp_r by lia. reflexivity.
Qed.

Lemma feed_TakeNth_general (l : loc) (n : Z) (rf r : ReducerFn) :
  (forall result input h,
      Step r result input h
      = (c <- load_int l ;;
         let c := int_add c 1 in
         store l (VInt c) ;;;
         r <- int_rem c n ;;
         if r =? 0 then Step rf result input
         else ret result) h) ->
  ignores l (Step rf) ->
  1 <= n ->
  forall xs c acc h,
    0 <= c ->
    c + Z.of_nat (length xs) <= int_max ->
    IsReduced acc = false ->
    same_but_cell l
      (feed (Step rf) acc (every_nth n (c + 1) xs) h)
      (feed (Step r) acc xs (set_cell l (VInt c) h)).
Proof.
  intros Hstep Hig Hn.
  induction xs as [|x xs IH]; intros c acc h Hc Hlen Hacc.
  - cbn. eexists. reflexivity.
  - cbn [length] in Hlen.
    cbn [feed every_nth]. unfold bind at 1. rewrite Hstep.
    go_unfold. rewrite lookup_set_cell. cbn.
    unfold int_add. rewrite wrap_id by int_lia.
    unfold int_rem. replace (n =? 0) with false by lia.
    go_unfold. rewrite rem_is_mod by lia.
    fold (set_cell l (VInt (c + 1)) (set_cell l (VInt c) h)).
    rewrite set_cell_set_cell.
    destruct ((c + 1) mod n =? 0).
    + cbn [feed]. unfold bind at 1. rewrite Hig.
      destruct (Step rf acc x h) as [r0 h1|]; [|reflexivity].
      destruct (IsReduced r0) eqn:Er.
      * eexists. reflexivity.
      * apply IH; [lia|lia|exact Er].
    + rewrite Hacc. apply IH; [lia|lia|exact Hacc].
Qed.

(** X23. Driving [TakeNth(n)(rf)], [n >= 1], over fewer than [2^63]
    inputs is driving [rf] over the inputs at the positions divisible by
    [n], for every downstream reducer: if [rf] stops, so does the
    pipeline, with the same accumulator. *)
Theorem TakeNth_feed (n : Z) (rf : ReducerFn) (h0 : heap) (acc : value)
    (xs : list value)
    (Hn : 1 <= n)
    (Hlen : Z.of_nat (length xs) <= int_max)
    (Hacc : IsReduced acc = false)
    (Hig : ignores (fresh h0) (Step rf)) :
  exists r h1,
    TakeNth n rf h0 = Ok r h1 /\
    same_but_cell (fresh h0)
      (feed (Step rf) acc (every_nth n 1 xs) h1)
      (feed (Step r) acc xs h1).
Proof.
  destruct (TakeNth_apply n rf h0) as (r & Happ & _ & _ & Hstep).
  exists r. eexists. split; [exact Happ|].
  change (Heap (<[fresh h0 := VInt 0]> (cells h0)) (S (fresh h0)))
    with (set_cell (fresh h0) (VInt 0) (Heap (cells h0) (S (fresh h0)))).
  set (hB := Heap (cells h0) (S (fresh h0))).
  pose proof (feed_TakeNth_general (fresh h0) n rf r Hstep Hig Hn
                xs 0 acc hB ltac:(lia) ltac:(lia) Hacc) as H.
  rewrite (feed_ignores _ _ Hig).
  change (0 + 1) with 1 in H.
  unfold same_but_cell in *.
  destruct (feed (Step rf) acc (every_nth n 1 xs) hB) as [v h'|];
    [|exact H].
  destruct H as (w & H). exists w. rewrite H.
  now rewrite set_cell_set_cell.
Qed.

Lemma TakeNth_feed_witness :
  1 <= 2 /\
  Z.of_nat (length (ints [1; 2; 3; 4; 5])) <= int_max /\
  IsReduced (VInt 0) = false /\
  ignores (fresh empty_heap) (Step stopping) /\
  exists r h1,
    TakeNth 2 stopping empty_heap = Ok r h1 /\
    exists w,
      feed (Step r) (VInt 0) (ints [1; 2; 3; 4; 5]) h1
      = Ok (VReduced 1%nat (VInt 0))
           (set_cell 0%nat w (Heap (cells h1) 2%nat)).
Proof.
  assert (Hlen : Z.of_nat (length (ints [1; 2; 3; 4; 5])) <= int_max)
    by (unfold int_max; cbn; lia).
  assert (Hig : ignores (fresh empty_heap) (Step stopping))
    by (intros acc x w h; reflexivity).
  split; [lia|]. split; [exact Hlen|]. split; [reflexivity|].
  split; [exact Hig|].
  destruct (TakeNth_feed 2 stopping empty_heap (VInt 0)
              (ints [1; 2; 3; 4; 5]) ltac:(lia) Hlen eq_refl Hig)
    as (r & h1 & Happ & Hfeed).
  exists r, h1. split; [exact Happ|].
  injection Happ as _ <-.
  exact Hfeed.
Defined.

Lemma feed_Interpose_general (l : loc) (sep : value) (rf r : ReducerFn) :
  (forall result input h,
      Step r result input h
      = (b <- load_bool l ;;
         if b then
           sepr <- Step rf result sep ;;
           if IsReduced sepr then ret sepr else Step rf sepr input
         else
           store l (VBool true) ;;;
           Step rf result input) h) ->
  ignores l (Step rf) ->
  forall xs acc h,
    same_but_cell l
      (feed (Step rf) acc (flat_map (fun y => [sep; y]) xs) h)
      (feed (Step r) acc xs (set_cell l (VBool true) h)).
Proof.
  intros Hstep Hig.
  induction xs as [|x xs IH]; intros acc h.
  - cbn. eexists. reflexivity.
  - cbn [feed flat_map app]. unfold bind. rewrite Hstep.
    go_unfold. rewrite lookup_set_cell. cbn. rewrite Hig.
    destruct (Step rf acc sep h) as [sepr h1|]; [|reflexivity].
    destruct (IsReduced sepr) eqn:Es; cbn; rewrite ?Es.
    + eexists. reflexivity.
    + rewrite Hig.
      destruct (Step rf sepr x h1) as [r0 h2|]; [|reflexivity].
      destruct (IsReduced r0) eqn:Er; cbn; rewrite ?Er.
      * eexists. reflexivity.
      * apply IH.
Qed.

(** X24. Driving [Interpose(sep)(rf)] is driving [rf] over the inputs
    with [sep] between consecutive ones, for every downstream reducer: if
    [rf] stops on a separator, the input after it is never forwarded. *)
Theorem Interpose_feed (sep : value) (rf : ReducerFn) (h0 : heap)
    (Hig : ignores (fresh h0) (Step rf)) :
  exists r h1,
    Interpose sep rf h0 = Ok r h1 /\
    forall xs acc,
      same_but_cell (fresh h0)
        (feed (Step rf) acc (interposed sep xs) h1)
        (feed (Step r) acc xs h1).
Proof.
  destruct (Interpose_apply sep rf h0) as (r & Happ & _ & _ & Hstep).
  exists r. eexists. split; [exact Happ|].
  intros xs acc.
  change (Heap (<[fresh h0 := VBool false]> (cells h0)) (S (fresh h0)))
    with (set_cell (fresh h0) (VBool false) (Heap (cells h0) (S (fresh h0)))).
  set (hB := Heap (cells h0) (S (fresh h0))).
  rewrite (feed_ignores _ _ Hig).
  destruct xs as [|x xs].
  - cbn. eexists. now rewrite set_cell_set_cell.
  - cbn [interposed feed]. unfold bind. rewrite Hstep.
    go_unfold. rewrite lookup_set_cell. cbn.
    fold (set_cell (fresh h0) (VBool true)
            (set_cell (fresh h0) (VBool false) hB)).
    rewrite set_cell_set_cell. rewrite Hig.
    destruct (Step rf acc x hB) as [r0 h1|]; [|reflexivity].
    destruct (IsReduced r0) eqn:Er.
    + cbn. eexists. now rewrite set_cell_set_cell.
    + pose proof (feed_Interpose_general (fresh h0) sep rf r Hstep Hig
                    xs r0 h1) as H.
      unfold same_but_cell in *.
      destruct (feed (Step rf) r0 (flat_map (fun y => [sep; y]) xs) h1)
        as [v h'|]; [|exact H].
      destruct H as (w & H). exists w. rewrite H.
      now rewrite set_cell_set_cell.
Qed.

Lemma Interpose_feed_witness :
  ignores (fresh empty_heap) (Step appending) /\
  exists r h1,
    Interpose (VStr "/") appending empty_heap = Ok r h1 /\
    exists w,
      feed (Step r) (VSlice []) [VStr "a"; VStr "b"; VStr "c"] h1
      = Ok (VSlice [VStr "a"; VStr "/"; VStr "b"; VStr "/"; VStr "c"])
           (set_cell 0%nat w h1).
Proof.
  split; [apply ignores_appending|].
  destruct (Interpose_feed (VStr "/") appending empty_heap
              (ignores_appending _)) as (r & h1 & Happ & Hfeed).
  exists r, h1. split; [exact Happ|].
  injection Happ as _ <-.
  exact (Hfeed [VStr "a"; VStr "b"; VStr "c"] (VSlice [])).
Defined.

(** X25. [Mapcat(reduce_slice, f)] maps then flattens, for every
    downstream reducer: driving it over inputs is driving [rf] over the
    elements of the slices [f] returns, input after input. *)
Theorem Mapcat_feed (f : mapper) (gl : value -> list value)
    (rf : ReducerFn) (h0 : heap) (acc : value)
    (Hpure : pure_fn f (fun x => VSlice (gl x)))
    (Hacc : IsReduced acc = false) :
  exists r,
    Mapcat reduce_slice f rf h0 = Ok r h0 /\
    forall xs h,
      same_value_and_cells
        (feed (Step rf) acc (flat_map gl xs) h)
        (feed (Step r) acc xs h).
Proof.
  eexists. split; [reflexivity|].
  intros xs h. rewrite flat_map_concat_map.
  match goal with
  | |- same_value_and_cells _ (feed (Step ?r) _ _ _) =>
      assert (Hmap : forall ys a h',
                 feed (Step r) a ys h'
                 = feed (fun result input =>
                           reduce_slice (Step (PreservingReduced rf))
                             result input)
                        a (map VSlice (map gl ys)) h')
  end.
  { induction ys as [|y ys IH]; intros a h'; [reflexivity|].
    cbn [feed map]. go_unfold. rewrite Hpure.
    destruct (reduce_slice _ a (VSlice (gl y)) h') as [r0 h1|];
      [|reflexivity].
    destruct (IsReduced r0); [reflexivity|]. apply IH. }
  rewrite Hmap.
  apply (feed_Cat_reduce_slice rf
           (reducer (Init rf) (Result rf)
              (fun result input =>
                 reduce_slice (Step (PreservingReduced rf)) result input)));
    [reflexivity|exact Hacc].
Qed.

Lemma Mapcat_feed_witness :
  pure_fn twice_fn (fun x => VSlice (twice x)) /\
  IsReduced (VSlice []) = false /\
  exists r,
    Mapcat reduce_slice twice_fn appending empty_heap = Ok r empty_heap /\
    exists h'',
      feed (Step r) (VSlice []) (ints [1; 2; 3]) empty_heap
      = Ok (VSlice (ints [1; 1; 2; 2; 3; 3])) h''.
Proof.
  assert (Hpure : pure_fn twice_fn (fun x => VSlice (twice x)))
    by (intros x h; reflexivity).
  split; [exact Hpure|]. split; [reflexivity|].
  destruct (Mapcat_feed twice_fn twice appending empty_heap (VSlice [])
              Hpure eq_refl) as (r & Happ & Hfeed).
  exists r. split; [exact Happ|].
  destruct (Hfeed (ints [1; 2; 3]) empty_heap) as (h'' & H & _).
  exists h''. exact H.
Defined.

(** X26. [PartitionBy] compares each key with the previous one: when the
    key function returns slices, the first input is buffered and the
    second makes the step panic on the comparison, whatever the sink. *)
Theorem PartitionBy_slice_keys_panic (f : mapper) (k : value -> list value)
    (rf : ReducerFn) (h0 : heap) (acc x1 x2 : value)
    (Hpure : pure_fn f (fun x => VSlice (k x))) :
  exists r h1,
    PartitionBy f rf h0 = Ok r h1 /\
    (exists h2,
        Step r acc x1 h1 = Ok acc h2 /\
        cells h2 !! fresh h0 = Some (VSlice [x1]) /\
        Step r acc x2 h2
        = Panic "runtime error: comparing uncomparable type []interface {}").
Proof.
  destruct (PartitionBy_apply f rf h0) as (r & h1 & Happ & -> & _ & Hstep).
  exists r. eexists. split; [exact Happ|].
  eexists. split; [|split].
  - rewrite Hstep. go_unfold. rewrite Hpure. cbn.
    rewrite lookup_insert_eq. cbn [eq_ptr]. rewrite Nat.eqb_refl.
    cbn [cells fresh].
    repeat (rewrite lookup_insert_ne by lia).
    rewrite lookup_insert_eq. cbn. reflexivity.
  - cbn. apply lookup_insert_eq.
  - rewrite Hstep. go_unfold. rewrite Hpure. cbn.
    repeat (rewrite lookup_insert_ne by lia).
    rewrite lookup_insert_eq. reflexivity.
Qed.

Lemma PartitionBy_slice_keys_panic_witness :
  pure_fn slice_key_fn (fun x => VSlice [x]) /\
  transduce (PartitionBy slice_key_fn) appending (VSlice [])
    (ints [1; 2]) empty_heap
  = Panic "runtime error: comparing uncomparable type []interface {}".
Proof.
  assert (Hpure : pure_fn slice_key_fn (fun x => VSlice [x]))
    by (intros x h; reflexivity).
  split; [exact Hpure|].
  destruct (PartitionBy_slice_keys_panic slice_key_fn (fun x => [x])
              appending empty_heap (VSlice []) (VInt 1) (VInt 2) Hpure)
    as (r & h1 & Happ & h2 & H1 & _ & H2).
  unfold transduce, bind. rewrite Happ. cbn beta iota.
  unfold ints. cbn [feed map]. unfold bind. rewrite H1. cbn beta iota.
  cbn [IsReduced]. rewrite H2. reflexivity.
Defined.
